(** * Strategic bug fixer agent: fix-apply-test-rollback engine

    A shallow embedding of [src/bug-fixer.js] (single-file fix engine and the
    CI driver that follows it in the same file) and of [src/cost-monitor.js],
    with the properties of the engine stated and proved over it.

    Conventions of the embedding:
    - a JavaScript string is the list of its UTF-16 code units ([list N]);
    - a JavaScript object with optional keys is a record of [option] fields;
    - effectful code runs in a state-and-exception monad [IO] over a [World]
      holding the working tree, and a transcript of every interaction with
      the outside (file store, child processes, model API, cost tracker);
    - what lives outside the repository (the model API, the child processes,
      the configuration package, the clock) is an [Env] of oracles. *)

From Stdlib Require Import ZArith NArith.
From Stdlib Require Strings.String Strings.Ascii.
From stdpp Require Import gmap list.
Import String.StringSyntax.
Delimit Scope string_scope with string.

Set Default Proof Using "Type".

(* ====================================================================== *)
(** * JavaScript strings *)
(* ====================================================================== *)

Module JS.

(** A string is its sequence of UTF-16 code units. *)
Abbreviation jsstring := (list N).

(** ASCII literals. *)
Definition lit (s : String.string) : jsstring :=
  map Ascii.N_of_ascii (String.list_ascii_of_string s).
Arguments lit s%_string.

Definition nl : N := 10%N.          (* "\n" *)
Definition dquote : N := 34%N.      (* the double quote *)

(** WhiteSpace and LineTerminator code units: what [String.prototype.trim]
    strips and what the regular-expression class [\s] matches. *)
Definition is_ws (c : N) : bool :=
  ((9 <=? c) && (c <=? 13) || (c =? 32) || (c =? 160) || (c =? 0x1680)
   || (0x2000 <=? c) && (c <=? 0x200A) || (c =? 0x2028) || (c =? 0x2029)
   || (c =? 0x202F) || (c =? 0x205F) || (c =? 0x3000) || (c =? 0xFEFF))%N.

Fixpoint trimStart (s : jsstring) : jsstring :=
  match s with
  | c :: tl => if is_ws c then trimStart tl else s
  | [] => []
  end.

Fixpoint trimEnd (s : jsstring) : jsstring :=
  match s with
  | [] => []
  | c :: tl =>
      match trimEnd tl with
      | [] => if is_ws c then [] else [c]
      | r => c :: r
      end
  end.

Definition trim (s : jsstring) : jsstring := trimEnd (trimStart s).

Fixpoint startsWith (s p : jsstring) : bool :=
  match p, s with
  | [], _ => true
  | a :: p', b :: s' => (a =? b)%N && startsWith s' p'
  | _ :: _, [] => false
  end.

Fixpoint includes (s p : jsstring) : bool :=
  startsWith s p || match s with [] => false | _ :: tl => includes tl p end.

(** [s.split(sep)] for a one-unit separator. *)
Fixpoint split (sep : N) (s : jsstring) : list jsstring :=
  match s with
  | [] => [[]]
  | c :: tl =>
      if (c =? sep)%N then [] :: split sep tl
      else match split sep tl with
           | l :: ls => (c :: l) :: ls
           | [] => [[c]]
           end
  end.

(** Truthiness of a string: only the empty string is falsy. *)
Definition truthy (s : jsstring) : bool :=
  match s with [] => false | _ => true end.

(** [a || b] on an optional string: [undefined] and the empty string fall
    through to [b]. *)
Definition or_else (a : option jsstring) (b : jsstring) : jsstring :=
  match a with
  | Some s => if truthy s then s else b
  | None => b
  end.

Definition or_undef (a b : option jsstring) : option jsstring :=
  match a with
  | Some s => if truthy s then a else b
  | None => b
  end.

End JS.

(* ====================================================================== *)
(** * Regular expressions (the fragment the sources use) *)
(* ====================================================================== *)

Module Regex.
Import JS.

(** Every repetition in the sources ranges over a single character class,
    and every expression has at most one capturing group. *)
Inductive regex : Type :=
| Chars (t : jsstring)              (* literal text *)
| Rep (min : nat) (p : N → bool)    (* greedy [p*] (min 0) or [p+] (min 1) *)
| Opt (r : regex)                   (* greedy [r?] *)
| Alt (r1 r2 : regex)               (* [r1|r2], left first *)
| Cat (r1 r2 : regex)
| Group (r : regex)                 (* capturing group 1 *)
| Bol                               (* [^] without the m flag *)
| Eol.                              (* [$] without the m flag *)

Fixpoint cat (rs : list regex) : regex :=
  match rs with
  | [] => Chars []
  | [r] => r
  | r :: rs' => Cat r (cat rs')
  end.

(** Character classes. *)
Definition between (lo hi c : N) : bool := ((lo <=? c) && (c <=? hi))%N.
Definition is_digit (c : N) : bool := between 48 57 c.
Definition is_alnum (c : N) : bool :=
  between 97 122 c || between 65 90 c || is_digit c.
(* \w *)
Definition is_word (c : N) : bool := is_alnum c || (c =? 95)%N.
(* . *)
Definition is_dot (c : N) : bool :=
  negb ((c =? 10) || (c =? 13) || (c =? 0x2028) || (c =? 0x2029))%N.
(* [^)] *)
Definition not_rparen (c : N) : bool := negb (c =? 41)%N.
(* [a-zA-Z0-9/_-] *)
Definition is_pathchar (c : N) : bool :=
  is_alnum c || (c =? 47)%N || (c =? 95)%N || (c =? 45)%N.

(** Greedy repetition with backtracking: take as many units as the class
    allows, give back one at a time until the continuation succeeds. *)
Fixpoint rep {A} (p : N → bool) (min : nat) (s : jsstring)
    (k : jsstring → option A) : option A :=
  let stop := match min with O => k s | S _ => None end in
  match s with
  | c :: tl =>
      if p c then
        match rep p (pred min) tl k with
        | Some x => Some x
        | None => stop
        end
      else stop
  | [] => stop
  end.

(** Backtracking matcher in continuation-passing style. [inp] is the whole
    subject, [s] what is left of it, [cap] the capture so far. *)
Fixpoint run {A} (r : regex) (inp s : jsstring) (cap : option jsstring)
    (k : jsstring → option jsstring → option A) : option A :=
  match r with
  | Chars t => if startsWith s t then k (drop (length t) s) cap else None
  | Rep min p => rep p min s (λ s', k s' cap)
  | Opt r1 =>
      match run r1 inp s cap k with
      | Some x => Some x
      | None => k s cap
      end
  | Alt r1 r2 =>
      match run r1 inp s cap k with
      | Some x => Some x
      | None => run r2 inp s cap k
      end
  | Cat r1 r2 => run r1 inp s cap (λ s' cap', run r2 inp s' cap' k)
  | Group r1 =>
      run r1 inp s cap (λ s' _, k s' (Some (take (length s - length s') s)))
  | Bol => if length s =? length inp then k s cap else None
  | Eol => match s with [] => k s cap | _ :: _ => None end
  end.

(** A match: the matched text and the capture. *)
Record rmatch := { matched : jsstring; group1 : option jsstring }.

Definition match_at (r : regex) (inp s : jsstring) : option rmatch :=
  run r inp s None
    (λ s' cap, Some {| matched := take (length s - length s') s;
                       group1 := cap |}).

(** Leftmost match: [RegExp.prototype.exec] without the g flag. Returns
    the index of the match with it. *)
Fixpoint search (r : regex) (inp s : jsstring) : option (nat * rmatch) :=
  match match_at r inp s with
  | Some m => Some (length inp - length s, m)
  | None =>
      match s with
      | [] => None
      | _ :: tl => search r inp tl
      end
  end.

Definition exec (r : regex) (s : jsstring) : option rmatch :=
  snd <$> search r s s.

(** [s.replace(r, '')] for a regex without the g flag. *)
Definition remove_first (r : regex) (s : jsstring) : jsstring :=
  match search r s s with
  | Some (i, m) => take i s ++ drop (i + length (matched m)) s
  | None => s
  end.

(** [s.matchAll(r)] for a regex with the g flag: after a match the scan
    resumes where the match ended ([skip] counts the units of the last
    match still to pass over). *)
Fixpoint scan (r : regex) (inp : jsstring) (skip : nat) (s : jsstring)
    : list rmatch :=
  match s with
  | [] =>
      match skip, match_at r inp [] with
      | O, Some m => [m]
      | _, _ => []
      end
  | _ :: tl =>
      match skip with
      | S n => scan r inp n tl
      | O =>
          match match_at r inp s with
          | Some m => m :: scan r inp (pred (length (matched m))) tl
          | None => scan r inp 0 tl
          end
      end
  end.

Definition matchAll (r : regex) (s : jsstring) : list rmatch :=
  scan r s 0 s.

End Regex.

(* ====================================================================== *)
(** * Pure functions of bug-fixer.js *)
(* ====================================================================== *)

Module Pure.
Import JS Regex.

Definition fence : jsstring := lit "```".

(** [/^```(?:javascript|js)?\n?/] *)
Definition re_open_fence : regex :=
  cat [Bol; Chars fence;
       Opt (Alt (Chars (lit "javascript")) (Chars (lit "js")));
       Opt (Chars [nl])].

(** [/\n?```$/] *)
Definition re_close_fence : regex :=
  cat [Opt (Chars [nl]); Chars fence; Eol].

Definition extractCleanCode (aiResponse : jsstring) : jsstring :=
  let cleaned := trim aiResponse in
  let cleaned :=
    if startsWith cleaned fence then
      let cleaned := remove_first re_open_fence cleaned in
      remove_first re_close_fence cleaned
    else cleaned in
  trim cleaned.

(** The loop of [countChangedLines]: [lines[i]] past the end of an array
    is [undefined], here [None]. *)
Definition countChangedLines (original fixed : jsstring) : nat :=
  let originalLines := split nl original in
  let fixedLines := split nl fixed in
  let maxLength := max (length originalLines) (length fixedLines) in
  foldl (λ changes i,
           if decide (originalLines !! i = fixedLines !! i)
           then changes else S changes)
        0 (seq 0 maxLength).

(** What [parseCliArgs] returns; [argv[i]] past the end of the array is
    [undefined], here [None]. *)
Record CliArgs := {
  cli_filename : option jsstring;
  cli_errorMessage : jsstring;
  hasFilename : bool;
}.

Definition parseCliArgs (argv : list jsstring) : CliArgs :=
  let filename := argv !! 2 in
  let errorMessage := or_else (argv !! 3) [] in
  {| cli_filename := filename;
     cli_errorMessage := errorMessage;
     (* Boolean(filename) *)
     hasFilename := match filename with
                    | Some s => truthy s
                    | None => false
                    end |}.

End Pure.

(* ====================================================================== *)
(** * cost-monitor.js: the cost tracker *)
(* ====================================================================== *)

(** What the embedding needs of JavaScript numbers. Costs are doubles in the
    source; nothing below depends on how they round, so the operations stay
    abstract and every statement holds for any interpretation of them. *)
Class JSNumber (num : Type) := {
  nzero : num;
  nadd : num → num → num;
  nsub : num → num → num;
  nle : num → num → bool;          (* [a <= b] *)
  ntruthy : num → bool;            (* false at 0 and NaN *)
  nlit_10 : num;                   (* the literal 10.0 *)
  nlit_2 : num;                    (* the literal 2.0 *)
}.

(** Integers as an instance, to run the model on concrete inputs. *)
#[export] Instance Z_JSNumber : JSNumber Z := {|
  nzero := 0%Z;
  nadd := Z.add;
  nsub := Z.sub;
  nle := Z.leb;
  ntruthy := λ z, negb (z =? 0)%Z;
  nlit_10 := 10%Z;
  nlit_2 := 2%Z;
|}.

Module CostMonitor.
Import JS.

(** [Math.ceil(codeLength / 4)], for the character counts it is called
    with. *)
Definition estimateTokens (codeLength : nat) : nat :=
  if codeLength mod 4 =? 0 then codeLength / 4 else S (codeLength / 4).

Section Tracker.
Context {num : Type} `{JSNumber num}.

(** [a || b] on an optional number. *)
Definition num_or (a : option num) (b : num) : num :=
  match a with
  | Some x => if ntruthy x then x else b
  | None => b
  end.

Definition isWithinLimits (cost dailyLimit currentDailySpend : num) : bool :=
  nle (nadd currentDailySpend cost) dailyLimit.

Record TrackerOptions := {
  opt_dailyLimit : option num;
  opt_perFixLimit : option num;
}.

(** The closure state of [createCostTracker]: the three [let] variables
    and the two limits. [fixCount] only ever starts at 0 and grows by
    one, so it is a natural number. *)
Record Tracker := {
  dailySpend : num;
  fixCount : nat;
  lastReset : jsstring;
  dailyLimit : num;
  perFixLimit : num;
}.

(** [today] is [new Date().toDateString()] at the time of the call. *)
Definition createCostTracker (options : TrackerOptions) (today : jsstring)
    : Tracker :=
  {| dailySpend := nzero;
     fixCount := 0;
     lastReset := today;
     dailyLimit := num_or (opt_dailyLimit options) nlit_10;
     perFixLimit := num_or (opt_perFixLimit options) nlit_2 |}.

Definition checkAndResetDaily (today : jsstring) (t : Tracker) : Tracker :=
  if decide (today ≠ lastReset t) then
    {| dailySpend := nzero;
       fixCount := 0;
       lastReset := today;
       dailyLimit := dailyLimit t;
       perFixLimit := perFixLimit t |}
  else t.

Record FixStats := {
  fs_cost : num;
  fs_dailySpend : num;
  fs_fixCount : nat;
  fs_dailyLimit : num;
  fs_remainingBudget : num;
}.

Definition recordFix (today : jsstring) (cost : num) (t : Tracker)
    : FixStats * Tracker :=
  let t := checkAndResetDaily today t in
  let t := {| dailySpend := nadd (dailySpend t) cost;
              fixCount := fixCount t + 1;
              lastReset := lastReset t;
              dailyLimit := dailyLimit t;
              perFixLimit := perFixLimit t |} in
  ({| fs_cost := cost;
      fs_dailySpend := dailySpend t;
      fs_fixCount := fixCount t;
      fs_dailyLimit := dailyLimit t;
      fs_remainingBudget := nsub (dailyLimit t) (dailySpend t) |}, t).

Record AffordCheck := {
  allowed : bool;
  withinDailyLimit : bool;
  withinPerFixLimit : bool;
  ac_estimatedCost : num;
  ac_dailySpend : num;
  remainingDaily : num;
}.

Definition canAfford (today : jsstring) (estimatedCost : num) (t : Tracker)
    : AffordCheck * Tracker :=
  let t := checkAndResetDaily today t in
  let withinDaily := nle (nadd (dailySpend t) estimatedCost) (dailyLimit t) in
  let withinPerFix := nle estimatedCost (perFixLimit t) in
  ({| allowed := withinDaily && withinPerFix;
      withinDailyLimit := withinDaily;
      withinPerFixLimit := withinPerFix;
      ac_estimatedCost := estimatedCost;
      ac_dailySpend := dailySpend t;
      remainingDaily := nsub (dailyLimit t) (dailySpend t) |}, t).

Definition reset (today : jsstring) (t : Tracker) : Tracker :=
  {| dailySpend := nzero;
     fixCount := 0;
     lastReset := today;
     dailyLimit := dailyLimit t;
     perFixLimit := perFixLimit t |}.

End Tracker.

Arguments TrackerOptions : clear implicits.
Arguments Tracker : clear implicits.
Arguments FixStats : clear implicits.
Arguments AffordCheck : clear implicits.

End CostMonitor.

(* ====================================================================== *)
(** * The outside world and the effect monad *)
(* ====================================================================== *)

Module Effects.
Import JS.

(** A thrown value: an [Error] object with its message and, for the
    errors of [execSync], the captured streams of the child. *)
Record Error := {
  message : jsstring;
  err_stdout : option jsstring;
  err_stderr : option jsstring;
}.

(** [new Error(msg)] *)
Definition new_Error (msg : jsstring) : Error :=
  {| message := msg; err_stdout := None; err_stderr := None |}.

Inductive outcome (A : Type) : Type :=
| Ok (a : A)
| Throw (e : Error).
Arguments Ok {A} a.
Arguments Throw {A} e.

(** [usage] of a [generateText] response. *)
Record Usage := {
  promptTokens : option N;
  completionTokens : option N;
}.

Record GenResponse := {
  text : jsstring;
  usage : option Usage;
}.

(** The events of the transcript: every interaction with the outside. *)
Inductive event : Type :=
| EvAttempt (attempt maxRetries : Z)
    (* console: the "Attempt n of m" banner of a retry round *)
| EvGetConfig (path : jsstring)
| EvRead (file : jsstring) (result : outcome jsstring)
| EvWrite (file content : jsstring) (fault : option Error)
| EvExec (command : option jsstring) (result : outcome jsstring)
    (* execSync: the child's stdout, or the error thrown when it exits
       nonzero or cannot be spawned *)
| EvClock
| EvPrompt
| EvCostGate (let_through : bool)
| EvGenerate (response : outcome GenResponse)
| EvTrackerAvailable (answer : outcome bool)
| EvTrackCost (agent : jsstring) (prompt completion : N)
    (model : option jsstring) (fault : option Error).

(** The working tree, a counter of the interactions so far (the oracles
    may answer differently each time), and the transcript, most recent
    event first. *)
Record World := {
  disk : gmap jsstring jsstring;
  tick : nat;
  trace : list event;
}.

Definition emit (e : event) (w : World) : World :=
  {| disk := disk w; tick := S (tick w); trace := e :: trace w |}.

Definition IO (A : Type) : Type := World → outcome A * World.

Definition ret {A} (a : A) : IO A := λ w, (Ok a, w).

Definition throw {A} (e : Error) : IO A := λ w, (Throw e, w).

Definition bind {A B} (m : IO A) (f : A → IO B) : IO B :=
  λ w, match m w with
       | (Ok a, w') => f a w'
       | (Throw e, w') => (Throw e, w')
       end.

(** [try { m } catch (error) { h error }] *)
Definition try_catch {A} (m : IO A) (h : Error → IO A) : IO A :=
  λ w, match m w with
       | (Ok a, w') => (Ok a, w')
       | (Throw e, w') => h e w'
       end.

(** Look at the working tree without touching it. *)
Definition with_disk {A} (f : gmap jsstring jsstring → A) : IO A :=
  λ w, (Ok (f (disk w)), w).

End Effects.

Import Effects.

Declare Scope io_scope.
Delimit Scope io_scope with io.
Bind Scope io_scope with IO.
Notation "'let!' x := m 'in' k" := (bind m (λ x, k))
  (at level 10, x name, m at level 100, k at level 200) : io_scope.
Notation "'do!' m 'in' k" := (bind m (λ _, k))
  (at level 10, m at level 100, k at level 200) : io_scope.
Open Scope io_scope.

(* ====================================================================== *)
(** * bug-fixer.js: the fix engine *)
(* ====================================================================== *)

Module BugFixer.
Import JS Regex Pure.

(** ** Result objects *)

Record FixResult := {
  success : bool;
  filename : jsstring;
  originalCode : option jsstring;
  fixedCode : option jsstring;
  timestamp : jsstring;
  linesChanged : option nat;
  testOutput : option jsstring;
  model : option jsstring;
  error : option jsstring;
  testError : option jsstring;
}.

(** The [metadata] argument of the two constructors, with the keys their
    call sites in [fixBug] pass. *)
Record Metadata := {
  md_testOutput : option jsstring;
  md_model : option jsstring;
  md_testError : option jsstring;
}.

Definition no_metadata : Metadata :=
  {| md_testOutput := None; md_model := None; md_testError := None |}.

(** [now] is [new Date().toISOString()]. *)
Definition createSuccessResult (now originalCode fixedCode filename : jsstring)
    (metadata : Metadata) : FixResult :=
  {| success := true;
     filename := filename;
     originalCode := Some originalCode;
     fixedCode := Some fixedCode;
     timestamp := now;
     linesChanged := Some (countChangedLines originalCode fixedCode);
     testOutput := md_testOutput metadata;
     model := md_model metadata;
     error := None;
     testError := md_testError metadata |}.

(** [error.message || String(error)] *)
Definition error_text (e : Error) : jsstring :=
  or_else (Some (message e)) (lit "Error").

Definition createErrorResult (now filename : jsstring) (error : Error)
    (metadata : Metadata) : FixResult :=
  {| success := false;
     filename := filename;
     originalCode := None;
     fixedCode := None;
     timestamp := now;
     linesChanged := None;
     testOutput := md_testOutput metadata;
     model := md_model metadata;
     error := Some (error_text error);
     testError := md_testError metadata |}.

(** Result of [runTests]. *)
Record TestResult := {
  tr_success : bool;
  tr_output : jsstring;
  tr_error : option jsstring;
}.

(** Result of [applyAndTest]. *)
Record ApplyResult := {
  ar_success : bool;
  ar_testOutput : jsstring;
  ar_error : option jsstring;
}.

Section Engine.
Context {num : Type} `{JSNumber num}.

(** ** Configuration *)

(** The [options] argument of [fixBug]. *)
Record FixOptions := {
  fo_configPath : option jsstring;
  fo_model : option jsstring;
  fo_maxTokens : option num;
  fo_temperature : option num;
  fo_maxRetries : option num;
  fo_testCommand : option jsstring;
  fo_configType : option jsstring;
}.

(** What [getConfig] of the configuration package returns, as far as
    [createFixConfig] looks at it. *)
Record RawConfig := {
  rc_model : option jsstring;
  rc_maxTokens : option num;
  rc_temperature : option num;
  rc_maxRetries : option num;
  rc_testCommand : option jsstring;
}.

Record FixConfig := {
  cfg_model : option jsstring;
  cfg_maxTokens : option num;
  cfg_temperature : option num;
  cfg_maxRetries : option num;
  cfg_testCommand : option jsstring;
}.

(** [a || b] on optional numbers. *)
Definition num_or_undef (a b : option num) : option num :=
  match a with
  | Some x => if ntruthy x then a else b
  | None => b
  end.

(** [a ?? b] *)
Definition nullish {A} (a b : option A) : option A :=
  match a with Some _ => a | None => b end.

(** [{ key: derived, ...config }]: a key of [config] overrides. *)
Definition spread_over {A} (derived from_config : option A) : option A :=
  match from_config with Some _ => from_config | None => derived end.

(** The request to [generateText]. *)
Record GenRequest := {
  rq_model : option jsstring;
  rq_prompt : jsstring;
  rq_maxTokens : option num;
  rq_temperature : option num;
}.

(** [isWithinLimits(estimateCost(model, code, maxTokens))] of the
    configuration package: the verdict, its reason, and the estimate
    as [toFixed(4)] prints it. *)
Record GateCheck := {
  gc_allowed : bool;
  gc_reason : option jsstring;
  gc_estimate : jsstring;
}.

(** The variables [buildBugFixPrompt] hands to the prompt template. *)
Record TemplateVars := {
  tv_code : jsstring;
  tv_filename : jsstring;
  tv_errorMessage : jsstring;
  tv_language : jsstring;
}.

(** ** The environment

    Each oracle is asked with the current [tick], so that it may answer
    differently from one call to the next. Assumptions on the outside:
    a write that faults leaves the file as it was; child processes (the
    test command, git) answer from the working tree they find and leave
    it as it is; what is thrown is an [Error] object. *)
Record Env := {
  env_getConfig : nat → jsstring → outcome RawConfig;
  env_readFault : nat → jsstring → option Error;
  env_writeFault : nat → jsstring → jsstring → option Error;
  env_execSync :
    nat → gmap jsstring jsstring → option jsstring → outcome jsstring;
  env_now : nat → jsstring;
  env_getPromptTemplate : nat → RawConfig → TemplateVars → outcome jsstring;
  env_costGate :
    nat → option jsstring → jsstring → option num → outcome GateCheck;
  env_generateText : nat → GenRequest → outcome GenResponse;
  env_trackerAvailable : nat → outcome bool;
  env_trackCost :
    nat → jsstring → N → N → option jsstring → option Error;
}.

Context (E : Env).

(** ** Primitive interactions *)

Definition now : IO jsstring :=
  λ w, (Ok (env_now E (tick w)), emit EvClock w).

Definition getConfig (configPath : jsstring) : IO RawConfig :=
  λ w, (env_getConfig E (tick w) configPath, emit (EvGetConfig configPath) w).

Definition fileExistsOn (d : gmap jsstring jsstring) (f : jsstring) : bool :=
  bool_decide (is_Some (d !! f)).

Definition fileExists (f : jsstring) : IO bool :=
  with_disk (λ d, fileExistsOn d f).

Definition enoent (f : jsstring) : Error :=
  new_Error (lit "ENOENT: no such file or directory, open '" ++ f ++ lit "'").

Definition readFileContent (f : jsstring) : IO jsstring :=
  λ w, let r := match env_readFault E (tick w) f with
                | Some e => Throw e
                | None => match disk w !! f with
                          | Some content => Ok content
                          | None => Throw (enoent f)
                          end
                end in
       (r, emit (EvRead f r) w).

Definition writeFileContent (f content : jsstring) : IO unit :=
  λ w, let fault := env_writeFault E (tick w) f content in
       let d := match fault with
                | None => <[f := content]> (disk w)
                | Some _ => disk w
                end in
       (match fault with None => Ok tt | Some e => Throw e end,
        emit (EvWrite f content fault)
             {| disk := d; tick := tick w; trace := trace w |}).

Definition execSync (command : option jsstring) : IO jsstring :=
  λ w, let r := env_execSync E (tick w) (disk w) command in
       (r, emit (EvExec command r) w).

Definition runTests (command : option jsstring) : IO TestResult :=
  try_catch
    (let! output := execSync command in
     ret {| tr_success := true;
            tr_output := or_else (Some output) [];
            tr_error := None |})
    (λ error,
       ret {| tr_success := false;
              tr_output := or_else (err_stdout error) [];
              tr_error := Some (or_else (err_stderr error) (message error)) |}).

(** ** createFixConfig *)

Definition createFixConfig (options : FixOptions) : IO FixConfig :=
  let configPath := or_else (fo_configPath options) (lit ".agent-config.json") in
  let! config := getConfig configPath in
  ret {| cfg_model :=
           spread_over (or_undef (fo_model options) (rc_model config))
                       (rc_model config);
         cfg_maxTokens :=
           spread_over (num_or_undef (fo_maxTokens options) (rc_maxTokens config))
                       (rc_maxTokens config);
         cfg_temperature :=
           spread_over (nullish (fo_temperature options) (rc_temperature config))
                       (rc_temperature config);
         cfg_maxRetries :=
           spread_over (num_or_undef (fo_maxRetries options) (rc_maxRetries config))
                       (rc_maxRetries config);
         cfg_testCommand :=
           spread_over (or_undef (fo_testCommand options) (rc_testCommand config))
                       (rc_testCommand config) |}.

(** ** buildBugFixPrompt (config-adapter.js) *)

Definition languageMap (ext : jsstring) : option jsstring :=
  if decide (ext = lit "js") then Some (lit "javascript")
  else if decide (ext = lit "ts") then Some (lit "typescript")
  else if decide (ext = lit "py") then Some (lit "python")
  else if decide (ext = lit "go") then Some (lit "go")
  else if decide (ext = lit "rs") then Some (lit "rust")
  else None.

Definition buildBugFixPrompt (code filename errorMessage : jsstring)
    : IO jsstring :=
  let! config := getConfig (lit ".agent-config.json") in
  let ext := default [] (last (split 46 filename)) in
  let language := or_else (languageMap ext) (lit "javascript") in
  let variables :=
    {| tv_code := code;
       tv_filename := filename;
       tv_errorMessage :=
         or_else (Some errorMessage) (lit "Fix any potential issues");
       tv_language := language |} in
  λ w, (env_getPromptTemplate E (tick w) config variables, emit EvPrompt w).

(** ** analyzeAndFix *)

Definition costGate (config : FixConfig) (code : jsstring) : IO GateCheck :=
  λ w, let r := env_costGate E (tick w) (cfg_model config) code
                  (cfg_maxTokens config) in
       (r, emit (EvCostGate match r with
                            | Ok c => gc_allowed c
                            | Throw _ => false
                            end) w).

Definition generateText (request : GenRequest) : IO GenResponse :=
  λ w, let r := env_generateText E (tick w) request in
       (r, emit (EvGenerate r) w).

(** [createGitHubCostTracker().isAvailable()] *)
Definition trackerAvailable : IO bool :=
  λ w, let r := env_trackerAvailable E (tick w) in
       (r, emit (EvTrackerAvailable r) w).

Definition trackCost (agent : jsstring) (prompt completion : N)
    (model : option jsstring) : IO unit :=
  λ w, let fault := env_trackCost E (tick w) agent prompt completion model in
       (match fault with None => Ok tt | Some e => Throw e end,
        emit (EvTrackCost agent prompt completion model fault) w).

Definition analyzeAndFix (code filename errorMessage : jsstring)
    (config : FixConfig) : IO jsstring :=
  let! prompt := buildBugFixPrompt code filename errorMessage in
  (* Cost check before API call *)
  let! limitCheck := costGate config code in
  if negb (gc_allowed limitCheck) then
    throw (new_Error
             (or_else (gc_reason limitCheck)
                (lit "Cost limit exceeded. Estimated: $"
                   ++ gc_estimate limitCheck)))
  else
    let! response := generateText {| rq_model := cfg_model config;
                                rq_prompt := prompt;
                                rq_maxTokens := cfg_maxTokens config;
                                rq_temperature := cfg_temperature config |} in
    (* Track cost in GitHub *)
    let! available := trackerAvailable in
    do! match available, usage response with
    | true, Some u =>
        try_catch
          (trackCost (lit "bugFixer")
             (default 0%N (promptTokens u))
             (default 0%N (completionTokens u))
             (cfg_model config))
          (λ _, ret tt)
    | _, _ => ret tt
    end in
    ret (extractCleanCode (text response)).

(** ** applyAndTest and fixBug

    Console output is left out, and so is [validateBugFixResult], whose
    report [fixBug] only prints. *)

Definition applyAndTest (filename originalCode fixedCode : jsstring)
    (config : FixConfig) : IO ApplyResult :=
  (* Apply fix *)
  do! writeFileContent filename fixedCode in
  (* Run tests *)
  let! testResult := runTests (cfg_testCommand config) in
  if tr_success testResult then
    ret {| ar_success := true;
           ar_testOutput := tr_output testResult;
           ar_error := None |}
  else
    (* Tests failed - rollback *)
    do! writeFileContent filename originalCode in
    ret {| ar_success := false;
           ar_testOutput := tr_output testResult;
           ar_error := tr_error testResult |}.

Definition fixBug (filename errorMessage : jsstring) (options : FixOptions)
    : IO FixResult :=
  try_catch
    ((* Create configuration *)
     let! config := createFixConfig options in
     (* Validate file exists *)
     let! present := fileExists filename in
     if negb present then
       throw (new_Error (lit "File not found: " ++ filename))
     else
       (* Read original code *)
       let! originalCode := readFileContent filename in
       (* Generate fix *)
       let! fixedCode := analyzeAndFix originalCode filename errorMessage config in
       (* Apply and test *)
       let! testResult := applyAndTest filename originalCode fixedCode config in
       if ar_success testResult then
         let! t := now in
         ret (createSuccessResult t originalCode fixedCode filename
                {| md_testOutput := Some (ar_testOutput testResult);
                   md_model := cfg_model config;
                   md_testError := None |})
       else
         let! t := now in
         ret (createErrorResult t filename
                (new_Error (lit "Tests failed after applying fix"))
                {| md_testOutput := Some (ar_testOutput testResult);
                   md_model := None;
                   md_testError := ar_error testResult |}))
    (λ error,
       let! t := now in
       ret (createErrorResult t filename error no_metadata)).

(** ** The command line

    [process.exit(code)] ends the run: [main] is modelled as returning
    the exit code, and nothing after an exit is executed. *)

Definition no_options : FixOptions :=
  {| fo_configPath := None; fo_model := None; fo_maxTokens := None;
     fo_temperature := None; fo_maxRetries := None;
     fo_testCommand := None; fo_configType := None |}.

Definition main (argv : list jsstring) : IO Z :=
  let args := parseCliArgs argv in
  if negb (hasFilename args) then
    (* showUsage(); process.exit(1) *)
    ret 1%Z
  else
    let filename := default [] (cli_filename args) in
    let! present := fileExists filename in
    if negb present then ret 1%Z
    else
      let! result := fixBug filename (cli_errorMessage args) no_options in
      if success result then ret 0%Z else ret 1%Z.

End Engine.

Arguments FixOptions : clear implicits.
Arguments RawConfig : clear implicits.
Arguments FixConfig : clear implicits.
Arguments GenRequest : clear implicits.
Arguments Env : clear implicits.

End BugFixer.

(* ====================================================================== *)
(** * The CI driver (second part of bug-fixer.js) *)
(* ====================================================================== *)

Module CIBugFixer.
Import JS Regex Pure BugFixer.

(** ** Test output parsing *)

(** [/at \w+.*\(([^)]+\.js):\d+:\d+\)/] *)
Definition re_stack_frame : regex :=
  cat [Chars (lit "at "); Rep 1 is_word; Rep 0 is_dot; Chars (lit "(");
       Group (Cat (Rep 1 not_rparen) (Chars (lit ".js")));
       Chars (lit ":"); Rep 1 is_digit; Chars (lit ":"); Rep 1 is_digit;
       Chars (lit ")")].

(** [/(?:at|in|from)\s+([a-zA-Z0-9/_-]+\.js)/g] *)
Definition re_file_mention : regex :=
  cat [Alt (Chars (lit "at")) (Alt (Chars (lit "in")) (Chars (lit "from")));
       Rep 1 is_ws;
       Group (Cat (Rep 1 is_pathchar) (Chars (lit ".js")))].

Record ParsedOutput := {
  po_file : jsstring;
  po_error : jsstring;
  hasFailures : bool;
}.

Definition dot_slash (file : jsstring) : jsstring :=
  if startsWith file (lit "./") then file else lit "./" ++ file.

Definition parseTestOutput (output : jsstring) : ParsedOutput :=
  let outputText := output in
  (* Find the file to fix from stack traces *)
  let stackMatch := exec re_stack_frame outputText in
  let sourceFile :=
    match stackMatch ≫= group1 with
    | Some matchedFile =>
        if truthy matchedFile then
          (* Exclude test files and node_modules *)
          let isValid := negb (includes matchedFile (lit ".test."))
                         && negb (includes matchedFile (lit "node_modules")) in
          if isValid then dot_slash matchedFile else lit "./cart.js"
        else lit "./cart.js"
    | None => lit "./cart.js" (* fallback *)
    end in
  {| po_file := sourceFile;
     po_error := lit "Jest test failures:" ++ [nl; nl] ++ outputText;
     hasFailures := includes outputText (lit "FAIL")
                    || includes outputText (lit "Error") |}.

(** The [for (const line of lines)] loop with its [errors.push]. *)
Definition extractErrorMessages (output : jsstring) : list jsstring :=
  let lines := split nl output in
  foldl (λ errors line,
           if includes line (lit "Error:") || includes line (lit "Expected")
              || includes line (lit "Received")
           then errors ++ [trim line] else errors)
        [] lines.

(** [files.add(x)] on a [Set], which keeps insertion order. *)
Definition set_add (files : list jsstring) (x : jsstring) : list jsstring :=
  if decide (x ∈ files) then files else files ++ [x].

(** The working tree is only consulted through [fileExists]. *)
Definition identifyFilesToFix (d : gmap jsstring jsstring) (output : jsstring)
    : list jsstring :=
  let parsed := parseTestOutput output in
  let files := [] in
  (* Add primary file from stack trace *)
  let files :=
    if truthy (po_file parsed) && fileExistsOn d (po_file parsed)
    then set_add files (po_file parsed) else files in
  (* Look for additional files mentioned in errors *)
  let fileMatches := matchAll re_file_mention output in
  foldl (λ files m,
           let file := default [] (group1 m) in
           if negb (includes file (lit "test"))
              && negb (includes file (lit "node_modules")) then
             let path := dot_slash file in
             if fileExistsOn d path then set_add files path else files
           else files)
        files fileMatches.

(** ** Configuration and result of a CI run *)

(** [maxRetries] is taken to be an integer. *)
Record CIOptions := {
  co_testCommand : option jsstring;
  co_maxRetries : option Z;
  co_autoCommit : option bool;
  co_autoPush : option bool;
  co_commitMessage : option jsstring;
  co_model : option jsstring;
  co_configType : option jsstring;
}.

Record CIConfig := {
  ci_testCommand : jsstring;
  ci_maxRetries : Z;
  autoCommit : bool;
  autoPush : bool;
  commitMessage : jsstring;
  ci_model : jsstring;
  configType : jsstring;
}.

(** The robot emoji U+1F916 is the surrogate pair D83E DD16. *)
Definition default_commit_message : jsstring :=
  [0xD83E; 0xDD16]%N ++ lit " Auto-fix: Resolve test failures".

Definition createCIConfig (options : CIOptions) : CIConfig :=
  {| ci_testCommand := or_else (co_testCommand options) (lit "npm test");
     ci_maxRetries := match co_maxRetries options with
                      | Some n => if (n =? 0)%Z then 3%Z else n
                      | None => 3%Z
                      end;
     autoCommit := default true (co_autoCommit options);
     autoPush := default false (co_autoPush options);
     commitMessage := or_else (co_commitMessage options) default_commit_message;
     ci_model := or_else (co_model options) (lit "gpt-4o-mini");
     configType := or_else (co_configType options) (lit "thorough") |}.

(** The [metadata] of [createCIResult], with the keys [runCIFix] passes. *)
Record CIMetadata := {
  cm_testsPassedInitially : option bool;
  cm_message : option jsstring;
  cm_error : option jsstring;
  cm_testOutput : option jsstring;
}.

Record CIResult := {
  totalAttempted : nat;
  successful : nat;
  failed : nat;
  fixes : list FixResult;
  ci_timestamp : jsstring;
  testsPassedInitially : option bool;
  ci_message : option jsstring;
  ci_error : option jsstring;
  ci_testOutput : option jsstring;
  committed : option bool;
  commitError : option jsstring;
}.

Definition createCIResult (now : jsstring) (fixes : list FixResult)
    (metadata : CIMetadata) : CIResult :=
  let successful := filter (λ f, success f = true) fixes in
  let failed := filter (λ f, negb (success f) = true) fixes in
  {| totalAttempted := length fixes;
     successful := length successful;
     failed := length failed;
     fixes := fixes;
     ci_timestamp := now;
     testsPassedInitially := cm_testsPassedInitially metadata;
     ci_message := cm_message metadata;
     ci_error := cm_error metadata;
     ci_testOutput := cm_testOutput metadata;
     committed := None;
     commitError := None |}.

(** Result of a git step. *)
Record GitResult := {
  g_success : bool;
  g_message : option jsstring;
  g_error : option jsstring;
  g_committed : option bool;
  g_pushed : option bool;
}.

Definition git_ok (msg : jsstring) : GitResult :=
  {| g_success := true; g_message := Some msg; g_error := None;
     g_committed := None; g_pushed := None |}.

Definition git_failed (err : jsstring) (committed : option bool) : GitResult :=
  {| g_success := false; g_message := None; g_error := Some err;
     g_committed := committed; g_pushed := None |}.

(** What [runCIFixWithRetries] returns: the last round's result spread
    under the two final keys. *)
Record RetryResult := {
  lastResult : option CIResult;
  finalTestsPassed : bool;
  attempts : Z;
}.

Section Driver.
Context {num : Type} `{JSNumber num}.
Context (E : Env num).

(** ** Git operations *)

Definition quoted (s : jsstring) : jsstring := [dquote] ++ s ++ [dquote].

Definition configureGit (name email : jsstring) : IO GitResult :=
  try_catch
    (do! execSync E (Some (lit "git config user.name " ++ quoted name)) in
     do! execSync E (Some (lit "git config user.email " ++ quoted email)) in
     ret (git_ok (lit "Git configured successfully")))
    (λ error, ret (git_failed (message error) None)).

Definition stageChanges : IO GitResult :=
  try_catch
    (do! execSync E (Some (lit "git add .")) in
     ret (git_ok (lit "Changes staged")))
    (λ error, ret (git_failed (message error) None)).

Definition commitChanges (msg : jsstring) : IO GitResult :=
  try_catch
    (do! execSync E (Some (lit "git commit -m " ++ quoted msg)) in
     ret (git_ok (lit "Changes committed")))
    (λ error, ret (git_failed (message error) None)).

Definition pushChanges : IO GitResult :=
  try_catch
    (do! execSync E (Some (lit "git push")) in
     ret (git_ok (lit "Changes pushed")))
    (λ error, ret (git_failed (message error) None)).

Definition commitFixes (msg : jsstring) (shouldPush : bool) : IO GitResult :=
  let! gitConfig := configureGit (lit "Auto Bug Fixer") (lit "action@github.com") in
  let! staged := stageChanges in
  if negb (g_success staged) then
    ret (git_failed (lit "Failed to stage changes") None)
  else
    let! committed := commitChanges msg in
    if negb (g_success committed) then
      ret (git_failed (lit "Failed to commit changes") None)
    else
      let done :=
        {| g_success := true; g_message := None; g_error := None;
           g_committed := Some true; g_pushed := Some shouldPush |} in
      if shouldPush then
        let! pushed := pushChanges in
        if negb (g_success pushed) then
          ret (git_failed (lit "Failed to push changes") (Some true))
        else ret done
      else ret done.

(** ** runCIFix

    Console output is left out, except for the banner of a retry round,
    and so is [validateTestOutput], whose report is only printed. *)

(** The [for (const file of filesToFix)] loop. *)
Fixpoint fixEach (config : CIConfig) (testOutput : jsstring)
    (filesToFix : list jsstring) (fixes : list FixResult)
    : IO (list FixResult) :=
  match filesToFix with
  | [] => ret fixes
  | file :: rest =>
      let errorContext := po_error (parseTestOutput testOutput) in
      let! fixResult :=
        fixBug E file errorContext
          {| fo_configPath := None;
             fo_model := Some (ci_model config);
             fo_maxTokens := None;
             fo_temperature := None;
             fo_maxRetries := None;
             fo_testCommand := Some (ci_testCommand config);
             fo_configType := Some (configType config) |} in
      fixEach config testOutput rest (fixes ++ [fixResult])
  end.

Definition runCIFix (options : CIOptions) : IO CIResult :=
  let config := createCIConfig options in
  (* Run tests to see what's failing *)
  let! testResult := runTests E (Some (ci_testCommand config)) in
  if tr_success testResult then
    let! t := now E in
    ret (createCIResult t []
           {| cm_testsPassedInitially := Some true;
              cm_message := Some (lit "No fixes needed");
              cm_error := None;
              cm_testOutput := None |})
  else
    (* Tests failed - parse output and identify files *)
    let testOutput := tr_output testResult ++ or_else (tr_error testResult) [] in
    let! filesToFix := with_disk (λ d, identifyFilesToFix d testOutput) in
    if length filesToFix =? 0 then
      let! t := now E in
      ret (createCIResult t []
             {| cm_testsPassedInitially := None;
                cm_message := None;
                cm_error := Some (lit "Could not identify files to fix");
                cm_testOutput := Some testOutput |})
    else
      (* Fix each file *)
      let! fixes := fixEach config testOutput filesToFix [] in
      let! t := now E in
      let result :=
        createCIResult t fixes
          {| cm_testsPassedInitially := None;
             cm_message := None;
             cm_error := None;
             cm_testOutput := Some testOutput |} in
      (* Commit fixes if configured and any succeeded *)
      if autoCommit config && (0 <? successful result) then
        let! commitResult := commitFixes (commitMessage config) (autoPush config) in
        ret {| totalAttempted := totalAttempted result;
               successful := successful result;
               failed := failed result;
               fixes := fixes;
               ci_timestamp := ci_timestamp result;
               testsPassedInitially := testsPassedInitially result;
               ci_message := ci_message result;
               ci_error := ci_error result;
               ci_testOutput := ci_testOutput result;
               committed := Some (g_success commitResult);
               commitError := g_error commitResult |}
      else ret result.

(** ** runCIFixWithRetries *)

Definition banner (attempt maxRetries : Z) : IO unit :=
  λ w, (Ok tt, emit (EvAttempt attempt maxRetries) w).

(** The [for (let attempt = 1; attempt <= config.maxRetries; attempt++)]
    loop: [remaining] is the number of iterations the bound still
    allows, [attempt] the loop variable, [last] is [lastResult]. *)
Fixpoint retryLoop (options : CIOptions) (config : CIConfig)
    (remaining : nat) (attempt : Z) (last : option CIResult)
    : IO RetryResult :=
  match remaining with
  | O =>
      ret {| lastResult := last;
             finalTestsPassed := false;
             attempts := ci_maxRetries config |}
  | S remaining' =>
      do! banner attempt (ci_maxRetries config) in
      let! result := runCIFix options in
      (* Check if tests pass now *)
      let! testResult := runTests E (Some (ci_testCommand config)) in
      if tr_success testResult then
        ret {| lastResult := Some result;
               finalTestsPassed := true;
               attempts := attempt |}
      else
        retryLoop options config remaining' (attempt + 1)%Z (Some result)
  end.

Definition runCIFixWithRetries (options : CIOptions) : IO RetryResult :=
  let config := createCIConfig options in
  retryLoop options config (Z.to_nat (ci_maxRetries config)) 1%Z None.

(** ** The command line of the CI driver

    As for the single-file command, [main] returns the exit code. *)

Definition main_options : CIOptions :=
  {| co_testCommand := None; co_maxRetries := Some 3%Z;
     co_autoCommit := Some true; co_autoPush := Some true;
     co_commitMessage := None; co_model := None; co_configType := None |}.

Definition main : IO Z :=
  try_catch
    (let! result := runCIFixWithRetries main_options in
     ret (if finalTestsPassed result then 0%Z else 1%Z))
    (λ error, ret 1%Z).

End Driver.

End CIBugFixer.

(* ====================================================================== *)
(** * Vocabulary of the specification *)
(* ====================================================================== *)

Module Spec.
Import JS Regex Pure CostMonitor BugFixer CIBugFixer.

(** ** Strings *)

(** After [trimStart] the first unit, if any, is not white space. *)
Definition starts_clean (s : jsstring) : Prop :=
  match s with [] => True | c :: _ => is_ws c = false end.

(** [lines.join(sep)], the inverse of [split]. *)
Fixpoint join (sep : N) (ls : list jsstring) : jsstring :=
  match ls with
  | [] => []
  | l :: ls' =>
      match ls' with
      | [] => l
      | _ :: _ => l ++ sep :: join sep ls'
      end
  end.

(** ** Transcripts *)

(** [m] only adds events satisfying [P] to the transcript. *)
Definition emits_only (P : event → Prop) {A} (m : IO A) : Prop :=
  ∀ w, ∃ new, trace (snd (m w)) = new ++ trace w ∧ Forall P new.

(** [m] never throws. *)
Definition no_throw {A} (m : IO A) : Prop := ∀ w, ∃ a, fst (m w) = Ok a.

Definition is_attempt (ev : event) : bool :=
  match ev with EvAttempt _ _ => true | _ => false end.

Definition not_attempt (ev : event) : Prop :=
  match ev with EvAttempt _ _ => False | _ => True end.

(** Number of retry rounds started, read off the transcript. *)
Definition rounds_started (tr : list event) : nat :=
  length (List.filter is_attempt tr).

(** Events that may precede the first write of an attempt. *)
Definition prelude_ev (ev : event) : Prop :=
  match ev with
  | EvGetConfig _ | EvRead _ _ | EvPrompt | EvCostGate _ | EvGenerate _
  | EvTrackerAvailable _ | EvTrackCost _ _ _ _ _ => True
  | _ => False
  end.

(** Events of a prelude that went through to the first write: the file
    was read, the gate let the call through, the proposer answered
    [resp]. *)
Definition passed_ev (resp : GenResponse) (ev : event) : Prop :=
  match ev with
  | EvGetConfig _ | EvPrompt | EvTrackCost _ _ _ _ _ => True
  | EvRead _ (Ok _) => True
  | EvCostGate b => b = true
  | EvGenerate g => g = Ok resp
  | EvTrackerAvailable (Ok _) => True
  | _ => False
  end.

(** The error conditions of the taxonomy, as they show in the
    transcript: the budget gate tripped, the proposer failed, the test
    command failed, a write faulted. *)
Definition failure_ev (ev : event) : Prop :=
  match ev with
  | EvCostGate false => True
  | EvGenerate (Throw _) => True
  | EvExec _ (Throw _) => True
  | EvWrite _ _ (Some _) => True
  | _ => False
  end.

Definition tests_failed_message : jsstring :=
  lit "Tests failed after applying fix".

Section WithEnv.
Context {num : Type} `{JSNumber num} (E : Env num).

(** The five ways an attempt on [f] can go, from world [w]: the result,
    the final world and the events it added to the transcript (most
    recent first). *)
Inductive fix_path (f : jsstring) (w : World)
    : FixResult → World → list event → Prop :=
| fp_untouched r w' pre :
    success r = false →
    disk w' = disk w →
    Forall prelude_ev pre →
    fix_path f w r w' (EvClock :: pre)
| fp_apply_fault r w' pre original resp t e :
    let patch := extractCleanCode (text resp) in
    Forall (passed_ev resp) pre →
    In (EvGenerate (Ok resp)) pre →
    disk w !! f = Some original →
    env_writeFault E t f patch = Some e →
    success r = false →
    error r = Some (error_text e) →
    disk w' = disk w →
    fix_path f w r w' (EvClock :: EvWrite f patch (Some e) :: pre)
| fp_accepted r w' pre original resp cmd out :
    let patch := extractCleanCode (text resp) in
    Forall (passed_ev resp) pre →
    In (EvGenerate (Ok resp)) pre →
    disk w !! f = Some original →
    success r = true →
    originalCode r = Some original →
    fixedCode r = Some patch →
    linesChanged r = Some (countChangedLines original patch) →
    disk w' = <[f := patch]> (disk w) →
    fix_path f w r w'
      (EvClock :: EvExec cmd (Ok out) :: EvWrite f patch None :: pre)
| fp_rolled_back r w' pre original resp cmd e0 :
    let patch := extractCleanCode (text resp) in
    Forall (passed_ev resp) pre →
    In (EvGenerate (Ok resp)) pre →
    disk w !! f = Some original →
    success r = false →
    error r = Some tests_failed_message →
    disk w' = <[f := original]> (<[f := patch]> (disk w)) →
    fix_path f w r w'
      (EvClock :: EvWrite f original None :: EvExec cmd (Throw e0)
         :: EvWrite f patch None :: pre)
| fp_rollback_fault r w' pre original resp cmd e0 t e :
    let patch := extractCleanCode (text resp) in
    Forall (passed_ev resp) pre →
    In (EvGenerate (Ok resp)) pre →
    disk w !! f = Some original →
    env_writeFault E t f original = Some e →
    success r = false →
    error r = Some (error_text e) →
    disk w' = <[f := patch]> (disk w) →
    fix_path f w r w'
      (EvClock :: EvWrite f original (Some e) :: EvExec cmd (Throw e0)
         :: EvWrite f patch None :: pre).

(** One round of the retry loop: the banner, [runCIFix], and the re-run
    of the test command. *)
Definition round (options : CIOptions) (attempt : Z)
    : IO (CIResult * TestResult) :=
  let config := createCIConfig options in
  do! banner attempt (ci_maxRetries config) in
  let! result := runCIFix E options in
  let! testResult := runTests E (Some (ci_testCommand config)) in
  ret (result, testResult).

Definition round_world options attempt (w : World) : World :=
  snd (round options attempt w).

Definition round_passed options attempt (w : World) : bool :=
  match fst (round options attempt w) with
  | Ok (_, t) => tr_success t
  | Throw _ => false
  end.

Definition round_result options attempt (w : World) : option CIResult :=
  match fst (round options attempt w) with
  | Ok (r, _) => Some r
  | Throw _ => None
  end.

(** The world after rounds [a+1 .. a+k], started in [w]. *)
Fixpoint rounds_from options (a k : nat) (w : World) : World :=
  match k with
  | O => w
  | S k' =>
      rounds_from options (S a) k' (round_world options (Z.of_nat (S a)) w)
  end.

(** Did the re-run after round [a+k] pass? What did that round return? *)
Definition passed_from options (a k : nat) (w : World) : bool :=
  round_passed options (Z.of_nat (a + k)) (rounds_from options a (k - 1) w).

Definition result_from options (a k : nat) (w : World) : option CIResult :=
  round_result options (Z.of_nat (a + k)) (rounds_from options a (k - 1) w).

(** The world after the first [n] rounds; whether the re-run of the test
    command after round [n] passed; what round [n] returned. *)
Definition after_rounds options (n : nat) (w : World) : World :=
  rounds_from options 0 n w.

Definition retest_passed options (n : nat) (w : World) : bool :=
  passed_from options 0 n w.

Definition nth_round_result options (n : nat) (w : World) : option CIResult :=
  result_from options 0 n w.

End WithEnv.

End Spec.

(* ====================================================================== *)
(** * Concrete worlds to run the model on *)
(* ====================================================================== *)

Module Scenarios.
Import JS Regex Pure CostMonitor BugFixer CIBugFixer.

Definition cart_js : jsstring := lit "./cart.js".
Definition cart_frame : jsstring := lit "at foo (./cart.js:10:3)".

(** The fenced answer of Scenario C. *)
Definition fenced_code : jsstring :=
  lit "```javascript" ++ [nl] ++ lit "code" ++ [nl] ++ lit "```".

(** An answer that opens with two fences. *)
Definition doubly_fenced : jsstring := lit "``````x".

(** A fenced block with nothing in it. *)
Definition fenced_nothing : jsstring :=
  lit "```javascript" ++ [nl] ++ lit "```".

(** A test output with an earlier frame, of a file that is not there. *)
Definition two_frames : jsstring :=
  lit "at add (./utils.js:2:1)" ++ [nl] ++ lit "    " ++ cart_frame.

Definition only_cart : gmap jsstring jsstring := {[ cart_js := lit "bad" ]}.

Definition w_bad : World := {| disk := only_cart; tick := 0; trace := [] |}.

Definition no_config : RawConfig Z :=
  {| rc_model := None; rc_maxTokens := None; rc_temperature := None;
     rc_maxRetries := None; rc_testCommand := None |}.

Definition fix_defaults : FixOptions Z :=
  {| fo_configPath := None; fo_model := None; fo_maxTokens := None;
     fo_temperature := None; fo_maxRetries := None;
     fo_testCommand := Some (lit "npm test"); fo_configType := None |}.

Definition ci_defaults : CIOptions :=
  {| co_testCommand := None; co_maxRetries := None; co_autoCommit := None;
     co_autoPush := None; co_commitMessage := None; co_model := None;
     co_configType := None |}.

Definition eio : Error := new_Error (lit "EIO: i/o error, write").

(** What [execSync] throws when [npm test] exits nonzero. *)
Definition tests_fail : Error :=
  {| message := lit "Command failed: npm test";
     err_stdout := Some (lit "FAIL ./cart.test.js" ++ [nl] ++ cart_frame);
     err_stderr := Some [] |}.

(** An environment in which the proposer always answers [answer], the
    test command passes exactly on the working trees that [passes]
    accepts, a write faults as [write_fault] says, and the cost tracker
    is available or not. *)
Definition mk_env (answer : jsstring)
    (passes : gmap jsstring jsstring → bool)
    (write_fault : jsstring → option Error) (tracker : bool) : Env Z :=
  {| env_getConfig := λ _ _, Ok no_config;
     env_readFault := λ _ _, None;
     env_writeFault := λ _ _ content, write_fault content;
     env_execSync := λ _ d cmd,
       if decide (cmd = Some (lit "npm test")) then
         if passes d then Ok (lit "PASS") else Throw tests_fail
       else Ok [];
     env_now := λ _, lit "2025-01-01T00:00:00.000Z";
     env_getPromptTemplate := λ _ _ _, Ok (lit "Fix the bug");
     env_costGate := λ _ _ _ _,
       Ok {| gc_allowed := true; gc_reason := None;
             gc_estimate := lit "0.0010" |};
     env_generateText := λ _ _,
       Ok {| text := answer;
             usage := Some {| promptTokens := Some 100%N;
                              completionTokens := Some 50%N |} |};
     env_trackerAvailable := λ _, Ok tracker;
     env_trackCost := λ _ _ _ _ _, None |}.

Definition cart_is_good (d : gmap jsstring jsstring) : bool :=
  bool_decide (d !! cart_js = Some (lit "good")).

Definition good_answer : jsstring :=
  lit "```javascript" ++ [nl] ++ lit "good" ++ [nl] ++ lit "```".

(** The proposer repairs the file. *)
Definition E_good : Env Z := mk_env good_answer cart_is_good (λ _, None) true.

(** The proposer's patch does not pass, and writing the original content
    back faults. *)
Definition E_rollback_fault : Env Z :=
  mk_env (lit "worse") cart_is_good
    (λ content, if decide (content = lit "bad") then Some eio else None) true.

(** The proposer's patch never passes. *)
Definition E_hopeless : Env Z :=
  mk_env (lit "worse") cart_is_good (λ _, None) true.

(** The GitHub cost tracker is not available. *)
Definition E_no_tracker : Env Z :=
  mk_env good_answer cart_is_good (λ _, None) false.

(** The proposer answers with an empty fenced block, and the test command
    passes whatever the file holds. *)
Definition E_empty : Env Z :=
  mk_env fenced_nothing (λ _, true) (λ _, None) true.

(** A second source file, and a working tree that holds both. *)
Definition utils_js : jsstring := lit "./utils.js".

Definition cart_and_utils : gmap jsstring jsstring :=
  {[ cart_js := lit "bad"; utils_js := lit "fine" ]}.

(** What Jest prints for a failing test of [cart.js]: the frame of the
    source file, then the frame of the test file. *)
Definition jest_report : jsstring :=
  lit "FAIL ./cart.test.js" ++ [nl]
  ++ lit "  TypeError: items is not iterable" ++ [nl]
  ++ lit "    " ++ cart_frame ++ [nl]
  ++ lit "    at Object.<anonymous> (./cart.test.js:5:1)".

(** The configuration [createFixConfig] builds from [fix_defaults] when
    the configuration file sets nothing. *)
Definition plain_config : FixConfig Z :=
  {| cfg_model := None; cfg_maxTokens := None; cfg_temperature := None;
     cfg_maxRetries := None; cfg_testCommand := Some (lit "npm test") |}.

End Scenarios.

(* ====================================================================== *)
(** * Vocabulary for the further properties *)
(* ====================================================================== *)

Module Behaviour.
Import JS Regex Pure CostMonitor BugFixer CIBugFixer.

(** The closing fence of a fenced answer, with the line break before
    it. *)
Definition close_tail : jsstring := nl :: fence.

(** The lines [extractErrorMessages] keeps. *)
Definition has_marker (line : jsstring) : bool :=
  includes line (lit "Error:") || includes line (lit "Expected")
  || includes line (lit "Received").

(** [m] only ever returns values satisfying [P]. *)
Definition returns {A} (P : A → Prop) (m : IO A) : Prop :=
  ∀ w a, fst (m w) = Ok a → P a.

(** What [runTests] makes of the answer of [execSync]. *)
Definition test_result_of (res : outcome jsstring) : TestResult :=
  match res with
  | Ok output =>
      {| tr_success := true; tr_output := or_else (Some output) [];
         tr_error := None |}
  | Throw error =>
      {| tr_success := false; tr_output := or_else (err_stdout error) [];
         tr_error := Some (or_else (err_stderr error) (message error)) |}
  end.

(** The output [runCIFix] hands to [identifyFilesToFix] when the test
    command fails with [e]. *)
Definition failing_output (e : Error) : jsstring :=
  tr_output (test_result_of (Throw e))
  ++ or_else (tr_error (test_result_of (Throw e))) [].

(** A result that carries no code: what [createErrorResult] builds. *)
Definition failure_shape (r : FixResult) : Prop :=
  originalCode r = None ∧ fixedCode r = None ∧ linesChanged r = None
  ∧ is_Some (error r).

(** The three git commands of [commitFixes] that change anything. *)
Definition git_add : option jsstring := Some (lit "git add .").

Definition git_commit (msg : jsstring) : option jsstring :=
  Some (lit "git commit -m " ++ quoted msg).

Definition git_push : option jsstring := Some (lit "git push").

(** [recordFix] called once for each cost of [costs], all on the day
    [today]. *)
Definition recordAll {num} `{JSNumber num} (today : jsstring)
    (costs : list num) (t : Tracker num) : Tracker num :=
  foldl (λ t cost, snd (recordFix today cost t)) t costs.

(** A tracker last used on a Monday, with three fixes recorded. *)
Definition monday_tracker : Tracker Z :=
  {| dailySpend := 6%Z; fixCount := 3; lastReset := lit "Mon Jan 06 2025";
     dailyLimit := 10%Z; perFixLimit := 2%Z |}.

(** [m] creates no file and deletes none, and changes the content of
    files satisfying [may] only. *)
Definition changes_only (may : jsstring → Prop) {A} (m : IO A) : Prop :=
  ∀ w g,
    (is_Some (disk (snd (m w)) !! g) ↔ is_Some (disk w !! g))
    ∧ (disk (snd (m w)) !! g ≠ disk w !! g → may g).

(** The paths the CI driver may pick for fixing. *)
Definition fixable (g : jsstring) : Prop :=
  startsWith g (lit "./") = true
  ∧ includes g (lit ".test.") = false
  ∧ includes g (lit "node_modules") = false.

Section Attempts.
Context {num : Type} `{JSNumber num} (E : Env num).

(** The options [runCIFix] passes to [fixBug]. *)
Definition round_options (config : CIConfig) : FixOptions num :=
  {| fo_configPath := None;
     fo_model := Some (ci_model config);
     fo_maxTokens := None;
     fo_temperature := None;
     fo_maxRetries := None;
     fo_testCommand := Some (ci_testCommand config);
     fo_configType := Some (configType config) |}.

(** The files attempted one after the other: every [fixBug] starts in
    the world the previous one left. The results, in the order of the
    files, and the world after the last attempt. *)
Fixpoint attempt_each (errorContext : jsstring) (options : FixOptions num)
    (files : list jsstring) (w : World) : list FixResult * World :=
  match files with
  | [] => ([], w)
  | file :: rest =>
      match fixBug E file errorContext options w with
      | (Ok r, w1) =>
          let '(rs, w2) := attempt_each errorContext options rest w1 in
          (r :: rs, w2)
      | (Throw _, w1) => ([], w1)
      end
  end.
End Attempts.

(** A configuration file that sets the test command and the token
    limit, options that set every key, and an environment that loads
    that file. *)
Definition file_config : RawConfig Z :=
  {| rc_model := None; rc_maxTokens := Some 500%Z; rc_temperature := None;
     rc_maxRetries := None; rc_testCommand := Some (lit "yarn test") |}.

Definition eager_options : FixOptions Z :=
  {| fo_configPath := None; fo_model := Some (lit "gpt-4o");
     fo_maxTokens := Some 4000%Z; fo_temperature := Some 1%Z;
     fo_maxRetries := Some 5%Z; fo_testCommand := Some (lit "npm test");
     fo_configType := None |}.

Definition E_configured : Env Z :=
  {| env_getConfig := λ _ _, Ok file_config;
     env_readFault := env_readFault Scenarios.E_good;
     env_writeFault := env_writeFault Scenarios.E_good;
     env_execSync := env_execSync Scenarios.E_good;
     env_now := env_now Scenarios.E_good;
     env_getPromptTemplate := λ _ _ _, Ok (lit "Fix the bug");
     env_costGate := env_costGate Scenarios.E_good;
     env_generateText := env_generateText Scenarios.E_good;
     env_trackerAvailable := env_trackerAvailable Scenarios.E_good;
     env_trackCost := env_trackCost Scenarios.E_good |}.

End Behaviour.
(* ====================================================================== *)
(** * Properties of the pure functions *)
(* ====================================================================== *)

Import JS Regex Pure CostMonitor BugFixer CIBugFixer Spec Scenarios Behaviour.

Section StringFacts.

Lemma trimEnd_idem (s : jsstring) : trimEnd (trimEnd s) = trimEnd s.
Proof.
  induction s as [|c tl IH]; [done|].
  cbn [trimEnd]. destruct (trimEnd tl) as [|r0 r'] eqn:Htl.
  - destruct (is_ws c) eqn:Hc; cbn [trimEnd]; by rewrite ?Hc.
  - cbn [trimEnd]. cbn [trimEnd] in IH. by rewrite IH.
Qed.

Lemma trimStart_clean (s : jsstring) : starts_clean (trimStart s).
Proof.
  induction s as [|c tl IH]; [done|].
  cbn [trimStart]. by destruct (is_ws c) eqn:Hc.
Qed.

Lemma trimStart_of_clean (s : jsstring) : starts_clean s → trimStart s = s.
Proof. destruct s as [|c tl]; [done|]. cbn. by intros ->. Qed.

Lemma trimEnd_clean (s : jsstring) : starts_clean s → starts_clean (trimEnd s).
Proof.
  destruct s as [|c tl]; [done|]. cbn [starts_clean trimEnd]. intros Hc.
  destruct (trimEnd tl); by rewrite ?Hc.
Qed.

Lemma trim_idem (s : jsstring) : trim (trim s) = trim s.
Proof.
  unfold trim.
  rewrite (trimStart_of_clean (trimEnd (trimStart s))).
  - apply trimEnd_idem.
  - apply trimEnd_clean, trimStart_clean.
Qed.

Lemma split_nonempty sep (s : jsstring) : split sep s ≠ [].
Proof.
  destruct s as [|c tl]; [done|]. cbn [split].
  destruct (c =? sep)%N; [done|]. by destruct (split sep tl).
Qed.

Lemma join_split sep (s : jsstring) : join sep (split sep s) = s.
Proof.
  induction s as [|c tl IH]; [done|].
  cbn [split]. pose proof (split_nonempty sep tl) as Hne.
  destruct (c =? sep)%N eqn:Hc.
  - apply N.eqb_eq in Hc as ->.
    destruct (split sep tl) as [|l ls]; [done|].
    change (join sep ([] :: l :: ls)) with (sep :: join sep (l :: ls)).
    by rewrite IH.
  - destruct (split sep tl) as [|l ls]; [done|].
    rewrite <- IH. cbn [join]. by destruct ls.
Qed.

Lemma split_inj sep (a b : jsstring) : split sep a = split sep b → a = b.
Proof.
  intros Heq. rewrite <- (join_split sep a), <- (join_split sep b).
  by rewrite Heq.
Qed.

(** The counting loop ends at zero exactly when no position differed. *)
Lemma count_loop_zero {A} `{EqDecision A} (xs ys : list A) (idx : list nat)
    (acc : nat) :
  foldl (λ changes i, if decide (xs !! i = ys !! i) then changes else S changes)
        acc idx = 0
  ↔ acc = 0 ∧ ∀ i, i ∈ idx → xs !! i = ys !! i.
Proof.
  revert acc. induction idx as [|j idx IH]; intros acc; cbn [foldl].
  - split; [intros ->; split; [done|] | by intros [-> _]].
    intros i Hi. by apply elem_of_nil in Hi.
  - rewrite IH. destruct (decide (xs !! j = ys !! j)) as [Hj|Hj].
    + split; intros [Hacc Hall]; (split; [done|]).
      * intros i Hi. apply elem_of_cons in Hi as [->|Hi]; auto.
      * intros i Hi. apply Hall. by apply elem_of_cons; right.
    + split; intros [Hacc Hall]; [done|].
      exfalso. apply Hj, Hall. by apply elem_of_cons; left.
Qed.

Lemma lookups_agree_eq {A} (xs ys : list A) :
  (∀ i, i ∈ seq 0 (max (length xs) (length ys)) → xs !! i = ys !! i)
  ↔ xs = ys.
Proof.
  split; [|by intros ->].
  intros Hall. apply list_eq. intros i.
  destruct (decide (i < max (length xs) (length ys))) as [Hlt|Hge].
  - apply Hall. apply elem_of_seq. lia.
  - rewrite !lookup_ge_None_2; [done|lia..].
Qed.

Lemma filter_partition_length {A} (P : A → Prop) `{∀ x, Decision (P x)}
    (Q : A → Prop) `{∀ x, Decision (Q x)} (l : list A) :
  (∀ x, Q x ↔ ¬ P x) →
  length (filter P l) + length (filter Q l) = length l.
Proof.
  intros HQ. induction l as [|x l IH]; [done|].
  rewrite !filter_cons.
  destruct (decide (P x)) as [HP|HP], (decide (Q x)) as [HQx|HQx];
    cbn [length]; try lia.
  - by apply HQ in HQx.
  - exfalso. apply HQx, HQ, HP.
Qed.

Lemma set_add_NoDup (files : list jsstring) (x : jsstring) :
  NoDup files → NoDup (set_add files x).
Proof.
  intros Hnd. unfold set_add. destruct (decide (x ∈ files)) as [?|Hx]; [done|].
  apply NoDup_app. split_and!; [done| |apply NoDup_singleton].
  intros y Hy Hy'. apply list_elem_of_singleton in Hy' as ->. by apply Hx.
Qed.

Lemma foldl_invariant {A B} (P : A → Prop) (f : A → B → A) (l : list B) (a : A) :
  P a → (∀ a b, P a → P (f a b)) → P (foldl f a l).
Proof.
  intros Ha Hf. revert a Ha. induction l as [|b l IH]; intros a Ha; cbn; auto.
Qed.

End StringFacts.

(** ** countChangedLines *)

(** C10. For all strings [a] and [b], [countChangedLines a b] is zero
    exactly when [a] and [b] are the same string; hence the [linesChanged]
    field of a success result is zero exactly when the fixed code is
    identical to the original code. *)
Theorem countChangedLines_zero_iff (a b : jsstring) :
  (countChangedLines a b = 0 ↔ a = b)
  ∧ ∀ now filename metadata,
      linesChanged (createSuccessResult now a b filename metadata) = Some 0
      ↔ b = a.
Proof.
  assert (countChangedLines a b = 0 ↔ a = b) as Hiff.
  { unfold countChangedLines. rewrite count_loop_zero, lookups_agree_eq.
    split.
    - intros [_ Heq]. by apply (split_inj nl).
    - by intros ->. }
  split; [done|].
  intros now filename metadata. cbn [createSuccessResult linesChanged].
  split.
  - intros [= Hz]. symmetry. by apply Hiff.
  - intros ->. f_equal. by apply Hiff.
Qed.

(** ** Counts of a CI result *)

(** C7. For every result built by [createCIResult] from any list of fix
    results, [successful + failed = totalAttempted]. *)
Theorem createCIResult_counts (now : jsstring) (fixes : list FixResult)
    (metadata : CIMetadata) :
  let r := createCIResult now fixes metadata in
  successful r + failed r = totalAttempted r.
Proof.
  cbn. apply filter_partition_length.
  intros f. destruct (success f); cbn; split; congruence.
Qed.

(** ** The budget gate of the cost tracker *)

(** C4. For every tracker state and every estimated cost, [canAfford]
    first performs the lazy day rollover (the counters are zeroed when the
    current date differs from [lastReset], and left alone otherwise) and
    then answers [allowed = true] exactly when the estimate is within the
    per-fix limit and [dailySpend + estimatedCost <= dailyLimit]. *)
Theorem canAfford_allowed_iff {num} `{JSNumber num}
    (t : Tracker num) (today : jsstring) (estimatedCost : num) :
  let t' := checkAndResetDaily today t in
  let r := fst (canAfford today estimatedCost t) in
  snd (canAfford today estimatedCost t) = t'
  ∧ (allowed r = true
     ↔ nle estimatedCost (perFixLimit t) = true
       ∧ nle (nadd (dailySpend t') estimatedCost) (dailyLimit t) = true)
  ∧ (if decide (today = lastReset t)
     then t' = t
     else dailySpend t' = nzero ∧ fixCount t' = 0 ∧ lastReset t' = today
          ∧ dailyLimit t' = dailyLimit t ∧ perFixLimit t' = perFixLimit t).
Proof.
  cbn. split; [done|]. split.
  - rewrite andb_true_iff.
    assert (dailyLimit (checkAndResetDaily today t) = dailyLimit t
            ∧ perFixLimit (checkAndResetDaily today t) = perFixLimit t)
      as [-> ->].
    { unfold checkAndResetDaily. by destruct (decide (today ≠ lastReset t)). }
    tauto.
  - unfold checkAndResetDaily.
    destruct (decide (today = lastReset t)) as [Heq|Hne].
    + by rewrite decide_False by (intros Hc; by apply Hc).
    + by rewrite decide_True.
Qed.

(** A tracker fresh from [createCostTracker] with the default limits lets
    a cost of 2 through and stops a cost of 3 (over the per-fix limit). *)
Example canAfford_defaults :
  let t := createCostTracker
             {| opt_dailyLimit := None; opt_perFixLimit := None |}
             (lit "Wed Jan 01 2025") in
  allowed (fst (canAfford (lit "Wed Jan 01 2025") 2%Z t)) = true
  ∧ allowed (fst (canAfford (lit "Wed Jan 01 2025") 3%Z t)) = false.
Proof. by vm_compute. Qed.

(** ** Normalisation of the proposer's output *)

(** C5, as stated, fails: normalising strips one opening fence only, so an
    answer that opens with two fences is changed again by a second pass. *)
Lemma extractCleanCode_not_idempotent :
  extractCleanCode (extractCleanCode doubly_fenced)
  ≠ extractCleanCode doubly_fenced.
Proof. vm_compute. discriminate. Qed.

(** C5 (amended). Whenever the normalised text does not itself begin with
    a fence marker, normalising it again returns it unchanged; and the
    fenced block [```javascript\ncode\n```] normalises to exactly [code]. *)
Theorem extractCleanCode_idempotent_unfenced (s : jsstring) :
  startsWith (extractCleanCode s) fence = false →
  extractCleanCode (extractCleanCode s) = extractCleanCode s
  ∧ extractCleanCode fenced_code = lit "code".
Proof.
  intros Hclean. split; [|by vm_compute].
  assert (∃ x, extractCleanCode s = trim x) as [x Hx].
  { unfold extractCleanCode. eauto. }
  unfold extractCleanCode at 1.
  rewrite Hx in Hclean |- *. rewrite trim_idem, Hclean. apply trim_idem.
Qed.

Lemma extractCleanCode_idempotent_unfenced_witness :
  startsWith (extractCleanCode fenced_code) fence = false
  ∧ extractCleanCode (extractCleanCode fenced_code) = extractCleanCode fenced_code
  ∧ extractCleanCode fenced_code = lit "code".
Proof.
  split; [reflexivity|].
  apply (extractCleanCode_idempotent_unfenced fenced_code). reflexivity.
Defined.

(** ** Files identified from the test output *)

(** C9, as stated, fails: the primary candidate is taken from the first
    stack frame of the output only, so an output that contains the
    [./cart.js] frame after a frame of another file does not yield
    [./cart.js], although that file exists. *)
Lemma identifyFilesToFix_first_frame_only :
  includes two_frames cart_frame = true
  ∧ is_Some (only_cart !! cart_js)
  ∧ identifyFilesToFix only_cart two_frames = []
  ∧ identifyFilesToFix only_cart two_frames ≠ [cart_js].
Proof. vm_compute. repeat split; eauto; discriminate. Qed.

Lemma set_add_head (files : list jsstring) (x p : jsstring) :
  head files = Some p → head (set_add files x) = Some p.
Proof.
  intros Hp. unfold set_add. case_decide; [done|].
  destruct files; [done|]. done.
Qed.

(** C9 (amended). The primary candidate is what the first match of the
    stack-frame pattern in the test output captures. When that is a file
    that is neither a test file nor under [node_modules], and the file
    (its path made to start with [./]) exists, the returned list starts
    with it, whatever else the output contains; the list is exactly that
    one path when every file the looser [at|in|from] pattern mentions is
    the same path or does not exist. For every output and working tree
    no path appears twice in the returned list. *)
Theorem identifyFilesToFix_frame_and_NoDup
    (d : gmap jsstring jsstring) (output file : jsstring) :
  exec re_stack_frame output ≫= group1 = Some file →
  file ≠ [] →
  includes file (lit ".test.") = false →
  includes file (lit "node_modules") = false →
  is_Some (d !! dot_slash file) →
  head (identifyFilesToFix d output) = Some (dot_slash file)
  ∧ ((∀ m, m ∈ matchAll re_file_mention output →
           dot_slash (default [] (group1 m)) = dot_slash file
           ∨ d !! dot_slash (default [] (group1 m)) = None) →
     identifyFilesToFix d output = [dot_slash file])
  ∧ ∀ d' output', NoDup (identifyFilesToFix d' output').
Proof.
  intros Hframe Hfile Htest Hmod Hthere.
  assert (po_file (parseTestOutput output) = dot_slash file) as Hprimary.
  { unfold parseTestOutput. cbn [po_file]. rewrite Hframe.
    destruct file; [done|]. cbn [truthy]. by rewrite Htest, Hmod. }
  assert (truthy (dot_slash file) = true) as Htruthy.
  { unfold dot_slash. destruct file; [done|]. by destruct (startsWith _ _). }
  assert (fileExistsOn d (dot_slash file) = true) as Hexists
    by (unfold fileExistsOn; by apply bool_decide_eq_true_2).
  split_and!.
  - unfold identifyFilesToFix. rewrite Hprimary, Htruthy, Hexists. cbn [andb].
    clear Hexists.
    apply foldl_invariant; [done|].
    intros files m Hhead. cbv zeta. destruct (_ && _); [|done].
    destruct (fileExistsOn _ _); [by apply set_add_head|done].
  - intros Hothers. unfold identifyFilesToFix.
    rewrite Hprimary, Htruthy, Hexists. cbn [andb]. clear Hexists.
    change (set_add [] (dot_slash file)) with [dot_slash file].
    induction (matchAll re_file_mention output) as [|m ms IH]; [done|].
    cbn [foldl].
    assert (dot_slash (default [] (group1 m)) = dot_slash file
            ∨ d !! dot_slash (default [] (group1 m)) = None) as Hm
      by (apply Hothers; left).
    assert ((if negb (includes (default [] (group1 m)) (lit "test"))
                && negb (includes (default [] (group1 m)) (lit "node_modules"))
             then if fileExistsOn d (dot_slash (default [] (group1 m)))
                  then set_add [dot_slash file] (dot_slash (default [] (group1 m)))
                  else [dot_slash file]
             else [dot_slash file]) = [dot_slash file]) as ->.
    { destruct (_ && _); [|done].
      destruct Hm as [->|Hnone].
      - destruct (fileExistsOn _ _); [|done].
        unfold set_add. rewrite decide_True; [done|]. apply list_elem_of_here.
      - unfold fileExistsOn. rewrite Hnone.
        by rewrite bool_decide_eq_false_2 by apply is_Some_None. }
    apply IH. intros m' Hm'. apply Hothers. by right.
  - clear. intros d' output'. unfold identifyFilesToFix.
    apply foldl_invariant.
    + destruct (_ && _); [apply set_add_NoDup|]; apply NoDup_nil_2.
    + intros files m Hnd.
      destruct (_ && _); [|done].
      destruct (fileExistsOn _ _); [by apply set_add_NoDup|done].
Qed.

Lemma identifyFilesToFix_frame_and_NoDup_witness :
  (exec re_stack_frame two_frames ≫= group1 = Some utils_js
   ∧ utils_js ≠ []
   ∧ includes utils_js (lit ".test.") = false
   ∧ includes utils_js (lit "node_modules") = false
   ∧ is_Some (cart_and_utils !! dot_slash utils_js))
  ∧ head (identifyFilesToFix cart_and_utils two_frames) = Some utils_js
  ∧ identifyFilesToFix cart_and_utils two_frames ≠ [cart_js].
Proof.
  assert (exec re_stack_frame two_frames ≫= group1 = Some utils_js) as H1
    by (by vm_compute).
  assert (utils_js ≠ []) as H2 by (by vm_compute).
  assert (includes utils_js (lit ".test.") = false) as H3 by (by vm_compute).
  assert (includes utils_js (lit "node_modules") = false) as H4 by (by vm_compute).
  assert (is_Some (cart_and_utils !! dot_slash utils_js)) as H5
    by (vm_compute; eauto).
  split; [by split_and!|].
  destruct (identifyFilesToFix_frame_and_NoDup cart_and_utils two_frames utils_js
              H1 H2 H3 H4 H5) as (Hhead & _ & _).
  split; [exact Hhead|].
  intros Heq. rewrite Heq in Hhead. discriminate Hhead.
Defined.

(** An output that contains the frame [at foo (./cart.js:10:3)] as its
    first stack frame, among other lines: [./cart.js] is returned, and the
    frame of the test file is not. *)
Example identifyFilesToFix_jest_report :
  includes jest_report cart_frame = true
  ∧ exec re_stack_frame jest_report ≫= group1 = Some cart_js
  ∧ identifyFilesToFix only_cart jest_report = [cart_js].
Proof. by vm_compute. Qed.

(** The same path mentioned three times is returned once. *)
Example identifyFilesToFix_dedup :
  identifyFilesToFix only_cart
    (cart_frame ++ lit " from cart.js in cart.js at cart.js")
  = [cart_js].
Proof. by vm_compute. Qed.

(* ====================================================================== *)
(** * Reasoning about transcripts and exceptions *)
(* ====================================================================== *)

Section Frames.
Context (P : event → Prop).

Lemma emits_ret {A} (a : A) : emits_only P (ret a).
Proof. intros w. by exists []. Qed.

Lemma emits_throw {A} (e : Error) : emits_only P (@throw A e).
Proof. intros w. by exists []. Qed.

Lemma emits_with_disk {A} (f : gmap jsstring jsstring → A) :
  emits_only P (with_disk f).
Proof. intros w. by exists []. Qed.

Lemma emits_bind {A B} (m : IO A) (f : A → IO B) :
  emits_only P m → (∀ a, emits_only P (f a)) → emits_only P (bind m f).
Proof.
  intros Hm Hf w. unfold bind. destruct (Hm w) as (new1 & Ht1 & HP1).
  destruct (m w) as [[a|e] w1]; cbn [snd] in *.
  - destruct (Hf a w1) as (new2 & Ht2 & HP2).
    exists (new2 ++ new1). rewrite Ht2, Ht1, app_assoc. split; [done|].
    by apply Forall_app.
  - by exists new1.
Qed.

Lemma emits_try_catch {A} (m : IO A) (h : Error → IO A) :
  emits_only P m → (∀ e, emits_only P (h e)) → emits_only P (try_catch m h).
Proof.
  intros Hm Hh w. unfold try_catch. destruct (Hm w) as (new1 & Ht1 & HP1).
  destruct (m w) as [[a|e] w1]; cbn [snd] in *.
  - by exists new1.
  - destruct (Hh e w1) as (new2 & Ht2 & HP2).
    exists (new2 ++ new1). rewrite Ht2, Ht1, app_assoc. split; [done|].
    by apply Forall_app.
Qed.

(** A primitive interaction: one event, whatever it answers. *)
Lemma emits_step {A} (r : World → outcome A) (ev : World → event)
    (upd : World → World) :
  (∀ w, P (ev w)) → (∀ w, trace (upd w) = trace w) →
  emits_only P (λ w, (r w, emit (ev w) (upd w))).
Proof.
  intros HP Hupd w. exists [ev w]. cbn. rewrite Hupd. split; [done|].
  by constructor.
Qed.

End Frames.

Lemma no_throw_ret {A} (a : A) : no_throw (ret a).
Proof. intros w. by exists a. Qed.

Lemma no_throw_with_disk {A} (f : gmap jsstring jsstring → A) :
  no_throw (with_disk f).
Proof. intros w. by eexists. Qed.

Lemma no_throw_bind {A B} (m : IO A) (f : A → IO B) :
  no_throw m → (∀ a, no_throw (f a)) → no_throw (bind m f).
Proof.
  intros Hm Hf w. unfold bind. destruct (Hm w) as [a Ha].
  destruct (m w) as [[a'|e] w1]; cbn [fst] in Ha; [|done].
  apply Hf.
Qed.

Lemma no_throw_try_catch {A} (m : IO A) (h : Error → IO A) :
  (∀ e, no_throw (h e)) → no_throw (try_catch m h).
Proof.
  intros Hh w. unfold try_catch. destruct (m w) as [[a|e] w1]; [by exists a|].
  apply Hh.
Qed.

Lemma app_cons_step {A} (e : A) t new base :
  t = new ++ base → e :: t = (e :: new) ++ base.
Proof. by intros ->. Qed.

Lemma passed_is_prelude resp ev : passed_ev resp ev → prelude_ev ev.
Proof. intros Hp. destruct ev; cbn in *; repeat case_match; done. Qed.

Lemma passed_not_failure resp ev : passed_ev resp ev → ¬ failure_ev ev.
Proof.
  intros Hp Hf. destruct ev; cbn in *; repeat case_match; simplify_eq; done.
Qed.

Lemma prelude_no_write (pre : list event) f c flt :
  Forall prelude_ev pre → ¬ In (EvWrite f c flt) pre.
Proof.
  intros Hpre Hin. rewrite Forall_forall in Hpre.
  apply (Hpre (EvWrite f c flt)). by apply list_elem_of_In.
Qed.

Lemma prelude_no_exec (pre : list event) cmd r :
  Forall prelude_ev pre → ¬ In (EvExec cmd r) pre.
Proof.
  intros Hpre Hin. rewrite Forall_forall in Hpre.
  apply (Hpre (EvExec cmd r)). by apply list_elem_of_In.
Qed.

Lemma passed_prelude resp (pre : list event) :
  Forall (passed_ev resp) pre → Forall prelude_ev pre.
Proof. intros Hpre. eapply Forall_impl; [done|]. apply passed_is_prelude. Qed.

Lemma passed_generate resp (pre : list event) g :
  Forall (passed_ev resp) pre → In (EvGenerate g) pre → g = Ok resp.
Proof.
  intros Hpre Hin. rewrite Forall_forall in Hpre.
  apply (Hpre (EvGenerate g)). by apply list_elem_of_In.
Qed.

Lemma passed_no_failure resp (pre : list event) ev :
  Forall (passed_ev resp) pre → In ev pre → ¬ failure_ev ev.
Proof.
  intros Hpre Hin. rewrite Forall_forall in Hpre.
  eapply passed_not_failure, Hpre. by apply list_elem_of_In.
Qed.

Lemma rounds_started_quiet (new base : list event) :
  Forall not_attempt new → rounds_started (new ++ base) = rounds_started base.
Proof.
  unfold rounds_started. intros Hq. rewrite List.filter_app, length_app.
  induction Hq as [|ev new Hev _ IH]; [done|].
  destruct ev; try done.
Qed.

(** ** Tactics: symbolic execution of the engine *)

(** Prove [e1 :: ... :: en :: trace w = ?new ++ trace w]. *)
Ltac trace_eq :=
  cbn [trace disk tick]; repeat (apply app_cons_step);
  exact (eq_refl : _ = [] ++ _).

Ltac io_unfold :=
  unfold fixBug, applyAndTest, analyzeAndFix, buildBugFixPrompt, createFixConfig,
    runTests, costGate, generateText, trackerAvailable, trackCost,
    readFileContent, writeFileContent, execSync, getConfig, fileExists, now,
    with_disk, try_catch, bind, ret, throw, emit.

Ltac io_simpl :=
  cbn [fst snd disk tick trace negb andb
       cfg_model cfg_maxTokens cfg_temperature cfg_maxRetries cfg_testCommand
       tr_success tr_output tr_error ar_success ar_testOutput ar_error].

(** Case split on the next answer of the environment. *)
Ltac io_step :=
  io_simpl;
  match goal with
  | |- context [match ?x with _ => _ end] =>
      lazymatch x with
      | env_getConfig _ _ _ => destruct x eqn:?
      | env_readFault _ _ _ => destruct x eqn:?
      | env_getPromptTemplate _ _ _ _ => destruct x eqn:?
      | env_costGate _ _ _ _ _ => destruct x eqn:?
      | negb (gc_allowed ?g) => destruct (gc_allowed g) eqn:?
      | env_generateText _ _ _ => destruct x eqn:?
      | env_trackerAvailable _ _ => destruct x as [[|]|] eqn:?
      | usage _ => destruct x eqn:?
      | env_trackCost _ _ _ _ _ _ => destruct x eqn:?
      | env_writeFault _ _ _ _ => destruct x eqn:?
      | env_execSync _ _ _ _ => destruct x eqn:?
      end
  end.

Ltac path_side :=
  cbn [success error originalCode fixedCode linesChanged createErrorResult
       createSuccessResult disk tick trace];
  first [ done | eassumption | by repeat constructor
        | by (cbn [In]; repeat first [left; reflexivity | right]) ].

(** At the end of a run: name the result, the world and the new events,
    and recognise which of the five paths was taken. *)
Ltac path_leaf :=
  eexists _, _, _; split; [reflexivity|]; split; [trace_eq|];
  cbn [disk tick trace];
  first [ solve [eapply fp_untouched; path_side]
        | solve [eapply fp_apply_fault; path_side]
        | solve [eapply fp_accepted; path_side]
        | solve [eapply fp_rolled_back; path_side]
        | solve [eapply fp_rollback_fault; path_side] ].

(** Split a membership in an explicit list into its cases. *)
Ltac in_cases H :=
  cbn [In] in H;
  repeat match type of H with
         | _ ∨ _ => destruct H as [H|H]
         end;
  try done; simplify_eq.

Ltac emits :=
  repeat first
    [ apply emits_ret | apply emits_throw | apply emits_with_disk
    | apply emits_bind; [|intros ?]
    | apply emits_try_catch; [|intros ?]
    | by apply emits_step
    | match goal with
      | |- emits_only _ (if ?b then _ else _) => destruct b
      | |- emits_only _ (match ?x with _ => _ end) => destruct x
      end ].

(* ====================================================================== *)
(** * Properties of the fix engine *)
(* ====================================================================== *)

Lemma suffix_after_head {A} (hd pre later earlier : list A) (x : A) :
  hd ++ pre = later ++ x :: earlier → x ∉ hd →
  ∃ l, pre = l ++ x :: earlier.
Proof.
  revert later. induction hd as [|h hd IH]; intros later Heq Hx.
  - by exists later.
  - destruct later as [|y later]; cbn in Heq; simplify_eq.
    + exfalso. apply Hx. left.
    + apply (IH later); [done|]. intros Hin. apply Hx. by right.
Qed.

Section EngineFacts.
Context {num : Type} `{JSNumber num} (E : Env num).

Lemma no_throw_now : no_throw (now E).
Proof. intros w. by eexists. Qed.

Lemma no_throw_runTests cmd : no_throw (runTests E cmd).
Proof. apply no_throw_try_catch. intros e. apply no_throw_ret. Qed.

Lemma no_throw_fixBug f em opts : no_throw (fixBug E f em opts).
Proof.
  apply no_throw_try_catch. intros e.
  apply no_throw_bind; [apply no_throw_now|]. intros t. apply no_throw_ret.
Qed.

(** Every run of [fixBug] returns a result and follows one of the five
    paths. *)
Lemma fixBug_paths f em opts w :
  ∃ r w' new,
    fixBug E f em opts w = (Ok r, w')
    ∧ trace w' = new ++ trace w
    ∧ fix_path E f w r w' new.
Proof.
  io_unfold. cbn [disk tick trace].
  io_step; [|path_leaf].
  cbn [fst snd disk tick trace].
  unfold fileExistsOn. destruct (disk w !! f) as [original|] eqn:Hdisk.
  2:{ rewrite bool_decide_eq_false_2 by apply is_Some_None. path_leaf. }
  rewrite bool_decide_eq_true_2 by eauto.
  io_simpl.
  repeat first [ rewrite Hdisk | io_step | path_leaf ].
Qed.

(** What [analyzeAndFix] leaves in the transcript. *)
Lemma analyzeAndFix_transcript code f em config w :
  ∃ new,
    trace (snd (analyzeAndFix E code f em config w)) = new ++ trace w
    ∧ disk (snd (analyzeAndFix E code f em config w)) = disk w
    ∧ ∀ resp,
        In (EvGenerate (Ok resp)) new →
        ((∃ agent p c m flt, In (EvTrackCost agent p c m flt) new)
         ↔ In (EvTrackerAvailable (Ok true)) new ∧ is_Some (usage resp))
        ∧ (∀ agent p c m flt,
             In (EvTrackCost agent p c m flt) new →
             agent = lit "bugFixer" ∧ m = cfg_model config
             ∧ ∃ u, usage resp = Some u
                    ∧ p = default 0%N (promptTokens u)
                    ∧ c = default 0%N (completionTokens u))
        ∧ ((∃ b, In (EvTrackerAvailable (Ok b)) new) →
           fst (analyzeAndFix E code f em config w)
           = Ok (extractCleanCode (text resp))).
Proof.
  io_unfold. io_simpl.
  repeat io_step.
  all: eexists; split; [trace_eq|]; split; [reflexivity|].
  all: intros resp Hin; in_cases Hin.
  all: split_and!.
  all: try (intros agent p c m flt Hc; in_cases Hc; eauto 10).
  all: try (intros [b Hb]; in_cases Hb; reflexivity).
  all: split.
  all: try (intros (agent & p & c & m & flt & Hc); in_cases Hc).
  all: try (intros [Hc [u Hu]]; in_cases Hc; congruence).
  all: try (split; [cbn [In]; tauto | eauto]).
  all: try (intros _; do 5 eexists; cbn [In]; eauto).
Qed.

(** C1 (amended). For every [fixBug] call on an existing file, the call
    returns a result, files other than the target are untouched, and
    one of three things holds. Either the result is a success, the test
    run passed and the file holds the normalised patch. Or the result is
    a failure and the file holds exactly its original content; in that
    case either nothing was written, or the rollback write is the last
    thing that happened before the result was built. Or the write that
    puts the original content back faulted: the result is a failure
    carrying the fault's message and the file keeps the patch. *)
Theorem fixBug_leaves_patch_or_original f em opts w original :
  disk w !! f = Some original →
  ∃ r w' new,
    fixBug E f em opts w = (Ok r, w')
    ∧ trace w' = new ++ trace w
    ∧ (∀ g, g ≠ f → disk w' !! g = disk w !! g)
    ∧ ((success r = true
        ∧ ∃ resp cmd out pre,
            let patch := extractCleanCode (text resp) in
            In (EvGenerate (Ok resp)) pre
            ∧ new = EvClock :: EvExec cmd (Ok out) :: EvWrite f patch None :: pre
            ∧ fixedCode r = Some patch
            ∧ disk w' !! f = Some patch)
       ∨ (success r = false
          ∧ disk w' !! f = Some original
          ∧ ((∀ c, ¬ In (EvWrite f c None) new)
             ∨ ∃ rest, new = EvClock :: EvWrite f original None :: rest))
       ∨ (success r = false
          ∧ ∃ resp cmd e0 t e pre,
              let patch := extractCleanCode (text resp) in
              env_writeFault E t f original = Some e
              ∧ new = EvClock :: EvWrite f original (Some e)
                        :: EvExec cmd (Throw e0) :: EvWrite f patch None :: pre
              ∧ error r = Some (error_text e)
              ∧ disk w' !! f = Some patch)).
Proof.
  intros Hdisk.
  destruct (fixBug_paths f em opts w) as (r & w' & new & Hrun & Htrace & Hpath).
  exists r, w', new. split; [done|]. split; [done|].
  destruct Hpath as
    [ r w' pre Hs Hd Hpre
    | r w' pre orig resp t e patch Hpre Hgen Ho Hfault Hs Herr Hd
    | r w' pre orig resp cmd out patch Hpre Hgen Ho Hs Horig Hfixed Hlines Hd
    | r w' pre orig resp cmd e0 patch Hpre Hgen Ho Hs Herr Hd
    | r w' pre orig resp cmd e0 t e patch Hpre Hgen Ho Hfault Hs Herr Hd ].
  - split; [by rewrite Hd|]. right; left. rewrite Hd. split_and!; [done..|].
    left. intros c [Hc|Hc]; [done|]. by eapply prelude_no_write.
  - split; [by rewrite Hd|]. right; left. rewrite Hd. split_and!; [done..|].
    left. intros c [Hc|[Hc|Hc]]; [done..|].
    eapply prelude_no_write; [by eapply passed_prelude|done].
  - split; [intros g Hg; by rewrite Hd, lookup_insert_ne|].
    left. split; [done|]. exists resp, cmd, out, pre.
    rewrite Hd, lookup_insert_eq. by split_and!.
  - assert (orig = original) as -> by congruence.
    split; [intros g Hg; by rewrite Hd, !lookup_insert_ne|].
    right; left. rewrite Hd, lookup_insert_eq. split_and!; [done..|].
    right. eauto.
  - assert (orig = original) as -> by congruence.
    split; [intros g Hg; by rewrite Hd, lookup_insert_ne|].
    right; right. split; [done|]. exists resp, cmd, e0, t, e, pre.
    rewrite Hd, lookup_insert_eq. by split_and!.
Qed.

(** C2 (amended). [fixBug] never throws: whatever the environment does,
    the call returns a result value. A missing target file, a tripped
    budget gate, a proposer failure, failing tests and a faulting write
    all yield a failure result; this includes a fault of the rollback
    write, which is converted like any other error into a failure
    result carrying the fault's message. *)
Theorem fixBug_never_throws f em opts w :
  ∃ r w' new,
    fixBug E f em opts w = (Ok r, w')
    ∧ trace w' = new ++ trace w
    ∧ (disk w !! f = None → success r = false ∧ disk w' = disk w)
    ∧ (∀ ev, In ev new → failure_ev ev → success r = false)
    ∧ (∀ c e, In (EvWrite f c (Some e)) new →
         success r = false ∧ error r = Some (error_text e)).
Proof.
  destruct (fixBug_paths f em opts w) as (r & w' & new & Hrun & Htrace & Hpath).
  exists r, w', new. split; [done|]. split; [done|].
  destruct Hpath as
    [ r w' pre Hs Hd Hpre
    | r w' pre orig resp t e patch Hpre Hgen Ho Hfault Hs Herr Hd
    | r w' pre orig resp cmd out patch Hpre Hgen Ho Hs Horig Hfixed Hlines Hd
    | r w' pre orig resp cmd e0 patch Hpre Hgen Ho Hs Herr Hd
    | r w' pre orig resp cmd e0 t e patch Hpre Hgen Ho Hfault Hs Herr Hd ].
  - split_and!; [done..|].
    intros c e [Hc|Hc]; [done|]. by eapply prelude_no_write in Hc.
  - split_and!; [congruence|done|].
    intros c e' [Hc|[Hc|Hc]]; [done|by simplify_eq|].
    eapply prelude_no_write in Hc; [done|by eapply passed_prelude].
  - split_and!; [congruence| |].
    + intros ev [<-|[<-|[<-|Hin]]]; [done..|].
      intros Hf. by eapply passed_no_failure in Hf.
    + intros c e' [Hc|[Hc|[Hc|Hc]]]; [done..|].
      eapply prelude_no_write in Hc; [done|by eapply passed_prelude].
  - split_and!; [congruence|done|].
    intros c e' [Hc|[Hc|[Hc|[Hc|Hc]]]]; [done..|].
    eapply prelude_no_write in Hc; [done|by eapply passed_prelude].
  - split_and!; [congruence|done|].
    intros c e' [Hc|[Hc|[Hc|[Hc|Hc]]]]; [done|by simplify_eq|done..|].
    eapply prelude_no_write in Hc; [done|by eapply passed_prelude].
Qed.

Lemma runTests_run cmd w :
  runTests E cmd w
  = (Ok (test_result_of (env_execSync E (tick w) (disk w) cmd)),
     emit (EvExec cmd (env_execSync E (tick w) (disk w) cmd)) w).
Proof.
  unfold runTests, execSync, try_catch, bind, ret.
  by destruct (env_execSync E (tick w) (disk w) cmd).
Qed.

Lemma createFixConfig_world opts w config w1 :
  createFixConfig E opts w = (Ok config, w1) →
  disk w1 = disk w ∧ ∃ path, trace w1 = EvGetConfig path :: trace w.
Proof.
  unfold createFixConfig, getConfig, bind, ret.
  destruct (env_getConfig E _ _); [|done].
  intros [= _ <-]. split; [done|]. by eexists.
Qed.

(** What [fixBug] does with a patch once [analyzeAndFix] has returned
    it. *)
Lemma fixBug_applies_the_patch f em opts w original config w1 patch w2 :
  disk w !! f = Some original →
  createFixConfig E opts w = (Ok config, w1) →
  env_readFault E (tick w1) f = None →
  analyzeAndFix E original f em config (emit (EvRead f (Ok original)) w1)
  = (Ok patch, w2) →
  let fault := env_writeFault E (tick w2) f patch in
  let tests :=
    env_execSync E (S (tick w2)) (<[f := patch]> (disk w))
      (cfg_testCommand config) in
  ∃ r w' new,
    fixBug E f em opts w = (Ok r, w')
    ∧ trace w' = new ++ trace w
    ∧ In (EvWrite f patch fault) new
    ∧ (fault = None →
       In (EvExec (cfg_testCommand config) tests) new
       ∧ (success r = true ↔ ∃ out, tests = Ok out)
       ∧ (success r = true →
          fixedCode r = Some patch ∧ disk w' !! f = Some patch))
    ∧ (is_Some fault → success r = false ∧ disk w' = disk w).
Proof.
  intros Hdisk Hconfig Hread Hfix. cbv zeta.
  destruct (createFixConfig_world _ _ _ _ Hconfig) as [Hd1 [path Ht1]].
  destruct (analyzeAndFix_transcript original f em config
              (emit (EvRead f (Ok original)) w1)) as (pre & Ht2 & Hd2 & _).
  rewrite Hfix in Ht2, Hd2. cbn [snd emit trace disk] in Ht2, Hd2.
  rewrite Ht1 in Ht2. rewrite Hd1 in Hd2.
  change (trace w2 = pre ++ [EvRead f (Ok original); EvGetConfig path] ++ trace w)
    in Ht2.
  rewrite app_assoc in Ht2.
  unfold fixBug, try_catch. unfold bind at 1. rewrite Hconfig.
  unfold bind at 1, fileExists, with_disk, fileExistsOn.
  rewrite Hd1, bool_decide_eq_true_2 by eauto. cbn [negb].
  unfold bind at 1, readFileContent. rewrite Hread, Hd1, Hdisk.
  unfold bind at 1. rewrite Hfix.
  unfold bind at 1, applyAndTest, bind at 1, writeFileContent.
  rewrite Hd2.
  destruct (env_writeFault E (tick w2) f patch) as [e|] eqn:Hfault.
  - unfold now, bind, ret, emit. cbn [trace disk tick].
    eexists _, _, _. split; [reflexivity|].
    split; [cbn [trace]; rewrite Ht2; repeat apply app_cons_step; reflexivity|].
    cbn [success disk createErrorResult].
    split_and!; [by right; left|done|done].
  - unfold bind at 1. rewrite runTests_run. cbn [emit tick disk trace].
    destruct (env_execSync E (S (tick w2)) (<[f:=patch]> (disk w))
                (cfg_testCommand config)) as [out|e0] eqn:Htests;
      cbn [test_result_of tr_success].
    + unfold now, bind, ret, emit. cbn [trace disk tick].
      eexists _, _, _. split; [reflexivity|].
      split; [cbn [trace]; rewrite Ht2; repeat apply app_cons_step; reflexivity|].
      cbn [success disk createSuccessResult fixedCode].
      split_and!; [by right; right; left| |by intros [? ?]].
      intros _. split_and!; [by right; left|split; eauto|].
      intros _. by rewrite lookup_insert_eq.
    + unfold bind at 1, writeFileContent.
      destruct (env_writeFault E _ f original) as [e|] eqn:Hback.
      all: unfold now, bind, ret, emit; cbn [trace disk tick].
      all: eexists _, _, _; (split; [reflexivity|]).
      all: (split; [cbn [trace]; rewrite Ht2; repeat apply app_cons_step; reflexivity|]).
      all: cbn [success disk createErrorResult].
      all: split_and!; [cbn [In]; tauto| |by intros [? ?]].
      all: intros _; split_and!; [cbn [In]; tauto| |done].
      all: split; [done|by intros [? ?]].
Qed.

(** C6 (amended). An answer that is empty after normalisation is not
    singled out. On an existing file, once the configuration is loaded,
    the file is read and [analyzeAndFix] returns the empty text, the
    empty content is written to the file; if that write goes through,
    the test command is run on the working tree with the file emptied,
    the attempt succeeds exactly when that run passes, and on success
    the file is left empty and the result carries the empty fixed code.
    If the write faults, the attempt fails and the tree is as before.
    In terms of the transcript alone: when the proposer answered with
    such a text, the attempt succeeds exactly when a test run passed;
    on success the file is left empty, and on failure it holds its
    original content unless the write that puts it back faulted. *)
Theorem fixBug_empty_patch f em opts w original :
  disk w !! f = Some original →
  ∃ r w' new,
    fixBug E f em opts w = (Ok r, w')
    ∧ trace w' = new ++ trace w
    ∧ (∀ config w1 w2,
         createFixConfig E opts w = (Ok config, w1) →
         env_readFault E (tick w1) f = None →
         analyzeAndFix E original f em config
           (emit (EvRead f (Ok original)) w1) = (Ok [], w2) →
         let fault := env_writeFault E (tick w2) f [] in
         let tests :=
           env_execSync E (S (tick w2)) (<[f := []]> (disk w))
             (cfg_testCommand config) in
         In (EvWrite f [] fault) new
         ∧ (fault = None →
            In (EvExec (cfg_testCommand config) tests) new
            ∧ (success r = true ↔ ∃ out, tests = Ok out)
            ∧ (success r = true →
               fixedCode r = Some [] ∧ disk w' !! f = Some []))
         ∧ (is_Some fault → success r = false ∧ disk w' = disk w))
    ∧ ∀ resp,
        In (EvGenerate (Ok resp)) new →
        extractCleanCode (text resp) = [] →
        (success r = true ↔ ∃ cmd out, In (EvExec cmd (Ok out)) new)
        ∧ (success r = true →
             fixedCode r = Some [] ∧ disk w' !! f = Some [])
        ∧ (success r = false →
             disk w' !! f = Some original
             ∨ ∃ e, In (EvWrite f original (Some e)) new).
Proof.
  intros Hdisk.
  destruct (fixBug_paths f em opts w) as (r & w' & new & Hrun & Htrace & Hpath).
  exists r, w', new. split; [done|]. split; [done|].
  split.
  { intros config w1 w2 Hconfig Hread Hfix.
    destruct (fixBug_applies_the_patch f em opts w original config w1 [] w2
                Hdisk Hconfig Hread Hfix)
      as (r2 & w2' & new2 & Hrun2 & Htrace2 & Hfacts).
    rewrite Hrun in Hrun2. injection Hrun2 as <- <-.
    rewrite Htrace in Htrace2. apply app_inv_tail in Htrace2 as <-.
    exact Hfacts. }
  intros resp0 Hin Hempty.
  destruct Hpath as
    [ r w' pre Hs Hd Hpre
    | r w' pre orig resp t e patch Hpre Hgen Ho Hfault Hs Herr Hd
    | r w' pre orig resp cmd out patch Hpre Hgen Ho Hs Horig Hfixed Hlines Hd
    | r w' pre orig resp cmd e0 patch Hpre Hgen Ho Hs Herr Hd
    | r w' pre orig resp cmd e0 t e patch Hpre Hgen Ho Hfault Hs Herr Hd ].
  - rewrite Hs, Hd. split_and!; [|done|by left].
    split; [done|]. intros (cmd & out & [Hc|Hc]); [done|].
    by eapply prelude_no_exec in Hc.
  - rewrite Hs, Hd. split_and!; [|done|by left].
    split; [done|]. intros (cmd & out & [Hc|[Hc|Hc]]); [done..|].
    eapply prelude_no_exec in Hc; [done|by eapply passed_prelude].
  - assert (resp0 = resp) as ->.
    { destruct Hin as [Hc|[Hc|[Hc|Hc]]]; [done..|].
      eapply passed_generate in Hc; [|done]. by simplify_eq. }
    subst patch. rewrite Hempty in *.
    rewrite Hs, Hd, lookup_insert_eq. split_and!; [|done..].
    split; [|done]. intros _. exists cmd, out. right. by left.
  - assert (orig = original) as -> by congruence.
    rewrite Hs, Hd, lookup_insert_eq. split_and!; [|done|by left].
    split; [done|]. intros (c & out & [Hc|[Hc|[Hc|[Hc|Hc]]]]); [done..|].
    eapply prelude_no_exec in Hc; [done|by eapply passed_prelude].
  - assert (orig = original) as -> by congruence.
    rewrite Hs. split_and!; [|done|].
    + split; [done|]. intros (c & out & [Hc|[Hc|[Hc|[Hc|Hc]]]]); [done..|].
      eapply prelude_no_exec in Hc; [done|by eapply passed_prelude].
    + intros _. right. exists e. right. by left.
Qed.

Lemma analyzeAndFix_consults_tracker code f em config w :
  ∃ new,
    trace (snd (analyzeAndFix E code f em config w)) = new ++ trace w
    ∧ ∀ resp, In (EvGenerate (Ok resp)) new →
              ∃ a, In (EvTrackerAvailable a) new.
Proof.
  io_unfold. io_simpl.
  repeat io_step.
  all: eexists; split; [trace_eq|].
  all: intros resp Hin; in_cases Hin.
  all: eexists; cbn [In]; eauto 10.
Qed.

Lemma analyzeAndFix_after_the_answer code f em config w prompt w1 chk resp :
  buildBugFixPrompt E code f em w = (Ok prompt, w1) →
  env_costGate E (tick w1) (cfg_model config) code (cfg_maxTokens config)
  = Ok chk →
  gc_allowed chk = true →
  env_generateText E (S (tick w1))
    {| rq_model := cfg_model config; rq_prompt := prompt;
       rq_maxTokens := cfg_maxTokens config;
       rq_temperature := cfg_temperature config |} = Ok resp →
  let available := env_trackerAvailable E (S (S (tick w1))) in
  let report u :=
    EvTrackCost (lit "bugFixer")
      (default 0%N (promptTokens u)) (default 0%N (completionTokens u))
      (cfg_model config)
      (env_trackCost E (S (S (S (tick w1)))) (lit "bugFixer")
         (default 0%N (promptTokens u)) (default 0%N (completionTokens u))
         (cfg_model config)) in
  trace (snd (analyzeAndFix E code f em config w))
  = match available, usage resp with
    | Ok true, Some u => [report u]
    | _, _ => []
    end
    ++ [EvTrackerAvailable available; EvGenerate (Ok resp); EvCostGate true]
    ++ trace w1
  ∧ fst (analyzeAndFix E code f em config w)
    = match available with
      | Ok _ => Ok (extractCleanCode (text resp))
      | Throw e => Throw e
      end.
Proof.
  intros Hprompt Hgate Hallowed Hgen. cbv zeta.
  remember (analyzeAndFix E code f em config w) as run eqn:Hrun.
  unfold analyzeAndFix in Hrun. unfold bind at 1 in Hrun.
  rewrite Hprompt in Hrun.
  unfold bind at 1, costGate in Hrun. rewrite Hgate, Hallowed in Hrun.
  cbn [negb] in Hrun.
  unfold bind at 1, generateText in Hrun. cbn [emit tick] in Hrun.
  rewrite Hgen in Hrun.
  unfold bind at 1, trackerAvailable in Hrun. cbn [emit tick] in Hrun.
  destruct (env_trackerAvailable E (S (S (tick w1)))) as [[|]|e].
  - destruct (usage resp) as [u|].
    + unfold bind, try_catch, trackCost, ret in Hrun. cbn [emit tick] in Hrun.
      destruct (env_trackCost E _ _ _ _ _); by rewrite Hrun.
    + unfold bind, ret in Hrun. by rewrite Hrun.
  - unfold bind, ret in Hrun. destruct (usage resp); by rewrite Hrun.
  - by rewrite Hrun.
Qed.

Lemma fixBug_reports_before_writing f em opts w :
  ∃ r w' new,
    fixBug E f em opts w = (Ok r, w')
    ∧ trace w' = new ++ trace w
    ∧ ∀ later earlier agent p c m flt,
        new = later ++ EvTrackCost agent p c m flt :: earlier →
        (∀ g x y, ¬ In (EvWrite g x y) earlier)
        ∧ (∀ cmd res, ¬ In (EvExec cmd res) earlier).
Proof.
  destruct (fixBug_paths f em opts w) as (r & w' & new & Hrun & Htrace & Hpath).
  exists r, w', new. split; [done|]. split; [done|].
  intros later earlier agent p c m flt Hnew.
  assert (∃ hd pre, new = hd ++ pre ∧ Forall prelude_ev pre
                    ∧ EvTrackCost agent p c m flt ∉ hd) as (hd & pre & -> & Hpre & Hhd).
  { destruct Hpath.
    - exists [EvClock], pre. split_and!; [done..|].
      intros Hin%list_elem_of_In. in_cases Hin.
    - eexists [_; _], pre. split_and!; [done|by eapply passed_prelude|].
      intros Hin%list_elem_of_In. in_cases Hin.
    - eexists [_; _; _], pre. split_and!; [done|by eapply passed_prelude|].
      intros Hin%list_elem_of_In. in_cases Hin.
    - eexists [_; _; _; _], pre. split_and!; [done|by eapply passed_prelude|].
      intros Hin%list_elem_of_In. in_cases Hin.
    - eexists [_; _; _; _], pre. split_and!; [done|by eapply passed_prelude|].
      intros Hin%list_elem_of_In. in_cases Hin. }
  destruct (suffix_after_head _ _ _ _ _ Hnew Hhd) as [l ->].
  apply Forall_app in Hpre as [_ Hpre]. apply Forall_cons in Hpre as [_ Hpre].
  split.
  - intros g x y. by apply prelude_no_write.
  - intros cmd res. by apply prelude_no_exec.
Qed.

(** C3 (amended). The fix engine reports the usage of a completed
    proposer call to the GitHub cost tracker, under a condition. Once
    the prompt is built, the gate lets the call through and the proposer
    answers, [analyzeAndFix] asks the tracker whether it is available
    and then calls [trackCost] (agent [bugFixer], the token counts of
    the answer, the model) exactly when the tracker says yes and the
    answer carries a usage; nothing else happens before it returns, and
    a failure of [trackCost] does not fail the call. In any run in which
    the proposer answered, the tracker was asked, and [trackCost] was
    called exactly when it said yes and there was a usage. Within
    [fixBug] every report comes before any write and any test run, so
    whatever the attempt's outcome. The tracker of cost-monitor.js is
    not consulted by the fix engine; its [recordFix], after the day
    rollover, adds the cost to [dailySpend] and increments [fixCount]
    whatever the cost, and always returns the new figures. *)
Theorem cost_recorded_when_tracker_available code f em config w :
  (∀ prompt w1 chk resp,
     buildBugFixPrompt E code f em w = (Ok prompt, w1) →
     env_costGate E (tick w1) (cfg_model config) code (cfg_maxTokens config)
     = Ok chk →
     gc_allowed chk = true →
     env_generateText E (S (tick w1))
       {| rq_model := cfg_model config; rq_prompt := prompt;
          rq_maxTokens := cfg_maxTokens config;
          rq_temperature := cfg_temperature config |} = Ok resp →
     let available := env_trackerAvailable E (S (S (tick w1))) in
     let report u :=
       EvTrackCost (lit "bugFixer")
         (default 0%N (promptTokens u)) (default 0%N (completionTokens u))
         (cfg_model config)
         (env_trackCost E (S (S (S (tick w1)))) (lit "bugFixer")
            (default 0%N (promptTokens u)) (default 0%N (completionTokens u))
            (cfg_model config)) in
     trace (snd (analyzeAndFix E code f em config w))
     = match available, usage resp with
       | Ok true, Some u => [report u]
       | _, _ => []
       end
       ++ [EvTrackerAvailable available; EvGenerate (Ok resp); EvCostGate true]
       ++ trace w1
     ∧ fst (analyzeAndFix E code f em config w)
       = match available with
         | Ok _ => Ok (extractCleanCode (text resp))
         | Throw e => Throw e
         end)
  ∧ (∃ new,
       trace (snd (analyzeAndFix E code f em config w)) = new ++ trace w
       ∧ ∀ resp,
           In (EvGenerate (Ok resp)) new →
           (∃ a, In (EvTrackerAvailable a) new)
           ∧ ((∃ agent p c m flt, In (EvTrackCost agent p c m flt) new)
              ↔ In (EvTrackerAvailable (Ok true)) new ∧ is_Some (usage resp))
           ∧ (∀ agent p c m flt,
                In (EvTrackCost agent p c m flt) new →
                agent = lit "bugFixer" ∧ m = cfg_model config
                ∧ ∃ u, usage resp = Some u
                       ∧ p = default 0%N (promptTokens u)
                       ∧ c = default 0%N (completionTokens u))
           ∧ ((∃ b, In (EvTrackerAvailable (Ok b)) new) →
              fst (analyzeAndFix E code f em config w)
              = Ok (extractCleanCode (text resp))))
  ∧ (∀ opts, ∃ r w' new,
       fixBug E f em opts w = (Ok r, w')
       ∧ trace w' = new ++ trace w
       ∧ ∀ later earlier agent p c m flt,
           new = later ++ EvTrackCost agent p c m flt :: earlier →
           (∀ g x y, ¬ In (EvWrite g x y) earlier)
           ∧ (∀ cmd res, ¬ In (EvExec cmd res) earlier))
  ∧ ∀ (t : Tracker num) (today : jsstring) (cost : num),
      let t0 := checkAndResetDaily today t in
      let stats := fst (recordFix today cost t) in
      let t' := snd (recordFix today cost t) in
      dailySpend t' = nadd (dailySpend t0) cost
      ∧ fixCount t' = fixCount t0 + 1
      ∧ dailyLimit t' = dailyLimit t ∧ perFixLimit t' = perFixLimit t
      ∧ fs_cost stats = cost
      ∧ fs_dailySpend stats = dailySpend t'
      ∧ fs_fixCount stats = fixCount t'.
Proof.
  split_and!.
  - apply analyzeAndFix_after_the_answer.
  - destruct (analyzeAndFix_transcript code f em config w)
      as (new & Htrace & _ & Hnew).
    destruct (analyzeAndFix_consults_tracker code f em config w)
      as (new2 & Htrace2 & Hasked).
    rewrite Htrace in Htrace2. apply app_inv_tail in Htrace2 as <-.
    exists new. split; [done|]. intros resp Hin. split; [by eapply Hasked|].
    by apply Hnew.
  - intros opts. apply fixBug_reports_before_writing.
  - intros t today cost. cbn.
    unfold checkAndResetDaily. by destruct (decide (today ≠ lastReset t)).
Qed.

End EngineFacts.

(* ====================================================================== *)
(** * Properties of the CI driver *)
(* ====================================================================== *)

Ltac total_step :=
  first
    [ apply no_throw_ret | apply no_throw_now | apply no_throw_runTests
    | apply no_throw_with_disk | apply no_throw_fixBug
    | apply no_throw_try_catch; intros ?
    | apply no_throw_bind; [|intros ?]
    | match goal with
      | |- no_throw (if ?b then _ else _) => destruct b
      end ].

Section DriverFacts.
Context {num : Type} `{JSNumber num} (E : Env num).

Lemma emits_runTests cmd : emits_only not_attempt (runTests E cmd).
Proof. unfold runTests, execSync. emits. Qed.

Lemma emits_now : emits_only not_attempt (now E).
Proof. unfold now. emits. Qed.

Lemma emits_fixBug f em opts : emits_only not_attempt (fixBug E f em opts).
Proof.
  intros w.
  destruct (fixBug_paths E f em opts w) as (r & w' & new & -> & Htrace & Hpath).
  exists new. split; [done|].
  assert (∀ resp pre, Forall (passed_ev resp) pre → Forall not_attempt pre)
    as Hpassed.
  { intros resp pre Hpre. eapply Forall_impl; [done|]. by intros []. }
  assert (∀ pre, Forall prelude_ev pre → Forall not_attempt pre) as Hprelude.
  { intros pre Hpre. eapply Forall_impl; [done|]. by intros []. }
  destruct Hpath; repeat (constructor; [done|]); eauto.
Qed.

Lemma emits_fixEach config out files fixes :
  emits_only not_attempt (fixEach E config out files fixes).
Proof.
  revert fixes. induction files as [|file rest IH]; intros fixes; cbn [fixEach].
  - apply emits_ret.
  - apply emits_bind; [apply emits_fixBug|]. intros r. apply IH.
Qed.

Lemma emits_commitFixes msg push :
  emits_only not_attempt (commitFixes E msg push).
Proof.
  unfold commitFixes, configureGit, stageChanges, commitChanges, pushChanges,
    execSync.
  emits.
Qed.

Lemma emits_runCIFix options : emits_only not_attempt (runCIFix E options).
Proof.
  unfold runCIFix.
  apply emits_bind; [apply emits_runTests|]. intros t.
  destruct (tr_success t).
  { apply emits_bind; [apply emits_now|]. intros ?. apply emits_ret. }
  apply emits_bind; [apply emits_with_disk|]. intros files.
  destruct (length files =? 0).
  { apply emits_bind; [apply emits_now|]. intros ?. apply emits_ret. }
  apply emits_bind; [apply emits_fixEach|]. intros fixes.
  apply emits_bind; [apply emits_now|]. intros t'.
  destruct (_ && _); [|apply emits_ret].
  apply emits_bind; [apply emits_commitFixes|]. intros c. apply emits_ret.
Qed.

Lemma no_throw_fixEach config out files fixes :
  no_throw (fixEach E config out files fixes).
Proof.
  revert fixes. induction files as [|file rest IH]; intros fixes; cbn [fixEach].
  - apply no_throw_ret.
  - apply no_throw_bind; [apply no_throw_fixBug|]. intros r. apply IH.
Qed.

Lemma no_throw_commitFixes msg push : no_throw (commitFixes E msg push).
Proof.
  unfold commitFixes, configureGit, stageChanges, commitChanges, pushChanges.
  cbv zeta. repeat total_step.
Qed.

(** No exception leaves [runCIFix]. *)
Lemma no_throw_runCIFix options : no_throw (runCIFix E options).
Proof.
  unfold runCIFix.
  repeat first [ apply no_throw_commitFixes | apply no_throw_fixEach
               | total_step ].
Qed.

Lemma no_throw_round options attempt : no_throw (round E options attempt).
Proof.
  unfold round. cbv zeta.
  apply no_throw_bind; [intros w; by eexists|]. intros _.
  apply no_throw_bind; [apply no_throw_runCIFix|]. intros r.
  apply no_throw_bind; [apply no_throw_runTests|]. intros t.
  apply no_throw_ret.
Qed.

(** A round starts exactly one round. *)
Lemma round_world_started options attempt w :
  rounds_started (trace (round_world E options attempt w))
  = S (rounds_started (trace w)).
Proof.
  unfold round_world, round. cbv zeta.
  unfold bind at 1. unfold banner at 1. cbn [fst snd].
  set (w1 := emit _ w).
  assert (emits_only not_attempt
            (let! result := runCIFix E options in
             let! testResult :=
               runTests E (Some (ci_testCommand (createCIConfig options))) in
             ret (result, testResult))) as Hq.
  { apply emits_bind; [apply emits_runCIFix|]. intros r.
    apply emits_bind; [apply emits_runTests|]. intros t. apply emits_ret. }
  destruct (Hq w1) as (new & -> & Hnew).
  by rewrite rounds_started_quiet.
Qed.

Lemma rounds_from_started options a k w :
  rounds_started (trace (rounds_from E options a k w))
  = k + rounds_started (trace w).
Proof.
  revert a w. induction k as [|k IH]; intros a w; cbn [rounds_from]; [done|].
  rewrite IH, round_world_started. lia.
Qed.

(** The last thing a round does is run the test command. *)
Lemma round_head options attempt w :
  ∃ res, head (trace (round_world E options attempt w))
         = Some (EvExec (Some (ci_testCommand (createCIConfig options))) res).
Proof.
  unfold round_world, round. cbv zeta.
  unfold bind at 1. unfold banner at 1. cbn [fst snd]. set (w1 := emit _ w).
  unfold bind at 1. destruct (no_throw_runCIFix options w1) as [r Hr].
  destruct (runCIFix E options w1) as [[r'|e] w2]; cbn [fst] in Hr; [|done].
  unfold runTests, try_catch, bind, execSync, ret.
  destruct (env_execSync _ _ _ _); cbn; eauto.
Qed.

Lemma rounds_from_head options a k w :
  1 ≤ k →
  ∃ res, head (trace (rounds_from E options a k w))
         = Some (EvExec (Some (ci_testCommand (createCIConfig options))) res).
Proof.
  revert a w. induction k as [|k IH]; intros a w Hk; [lia|].
  cbn [rounds_from]. destruct k as [|k]; [apply round_head|].
  apply IH. lia.
Qed.

(** One iteration of the loop is one [round]. *)
Lemma retryLoop_step options remaining attempt last w :
  retryLoop E options (createCIConfig options) (S remaining) attempt last w
  = match round E options attempt w with
    | (Ok (result, testResult), w') =>
        if tr_success testResult then
          (Ok {| lastResult := Some result;
                 finalTestsPassed := true;
                 attempts := attempt |}, w')
        else retryLoop E options (createCIConfig options) remaining
               (attempt + 1)%Z (Some result) w'
    | (Throw e, w') => (Throw e, w')
    end.
Proof.
  cbn [retryLoop]. unfold round. cbv zeta. unfold bind at 1 5, banner.
  cbn [fst snd].
  unfold bind at 1 3. destruct (runCIFix E options _) as [[r|e] w1]; [|done].
  unfold bind at 1 2. destruct (runTests E _ w1) as [[t|e] w2]; [|done].
  unfold ret. by destruct (tr_success t).
Qed.

Lemma passed_from_first options a w :
  passed_from E options a 1 w = round_passed E options (Z.of_nat (S a)) w.
Proof. unfold passed_from. cbn [rounds_from Nat.sub]. by rewrite Nat.add_1_r. Qed.

Lemma result_from_first options a w :
  result_from E options a 1 w = round_result E options (Z.of_nat (S a)) w.
Proof. unfold result_from. cbn [rounds_from Nat.sub]. by rewrite Nat.add_1_r. Qed.

Lemma passed_from_shift options a k w :
  1 ≤ k →
  passed_from E options a (S k) w
  = passed_from E options (S a) k (round_world E options (Z.of_nat (S a)) w).
Proof.
  intros Hk. unfold passed_from. destruct k as [|k]; [lia|].
  cbn [rounds_from Nat.sub]. rewrite Nat.sub_0_r.
  by replace (a + S (S k)) with (S a + S k) by lia.
Qed.

Lemma result_from_shift options a k w :
  1 ≤ k →
  result_from E options a (S k) w
  = result_from E options (S a) k (round_world E options (Z.of_nat (S a)) w).
Proof.
  intros Hk. unfold result_from. destruct k as [|k]; [lia|].
  cbn [rounds_from Nat.sub]. rewrite Nat.sub_0_r.
  by replace (a + S (S k)) with (S a + S k) by lia.
Qed.

(** The loop, entered with [remaining] iterations to go after [a] rounds:
    it runs [n] more rounds, [n] being the first whose re-run passes, or
    [remaining] when none does. *)
Lemma retryLoop_spec options remaining a last w :
  let config := createCIConfig options in
  ∃ r w' n,
    retryLoop E options config remaining (Z.of_nat (S a)) last w = (Ok r, w')
    ∧ w' = rounds_from E options a n w
    ∧ n ≤ remaining
    ∧ (∀ k, 1 ≤ k < n → passed_from E options a k w = false)
    ∧ if finalTestsPassed r
      then 1 ≤ n
           ∧ passed_from E options a n w = true
           ∧ attempts r = Z.of_nat (a + n)
           ∧ lastResult r = result_from E options a n w
      else n = remaining
           ∧ (1 ≤ n → passed_from E options a n w = false)
           ∧ attempts r = ci_maxRetries config
           ∧ lastResult r
             = if n is O then last else result_from E options a n w.
Proof.
  cbv zeta. revert a last w.
  induction remaining as [|remaining IH]; intros a last w.
  - exists {| lastResult := last; finalTestsPassed := false;
              attempts := ci_maxRetries (createCIConfig options) |}, w, 0.
    cbn. split_and!; try done; lia.
  - rewrite retryLoop_step.
    pose proof (passed_from_first options a w) as Hp1.
    pose proof (result_from_first options a w) as Hr1.
    unfold round_passed, round_result in Hp1, Hr1.
    assert (round_world E options (Z.of_nat (S a)) w
            = snd (round E options (Z.of_nat (S a)) w)) as Hw1 by done.
    destruct (no_throw_round options (Z.of_nat (S a)) w) as [[res t] Hround].
    destruct (round E options (Z.of_nat (S a)) w) as [[[res' t']|e] w1] eqn:Hrun;
      cbn [fst snd] in *; [|done].
    injection Hround as -> ->.
    destruct (tr_success t) eqn:Hpass.
    + eexists _, w1, 1. split; [done|].
      cbn [finalTestsPassed attempts lastResult rounds_from]. rewrite Hw1.
      split_and!; try done; try lia.
    + replace (Z.of_nat (S a) + 1)%Z with (Z.of_nat (S (S a))) by lia.
      destruct (IH (S a) (Some res) w1)
        as (r & w' & n & Hloop & Hw' & Hn & Hearlier & Hfinal).
      symmetry in Hw1.
      exists r, w', (S n). split; [done|].
      split; [by rewrite Hw', Hw1|]. split; [lia|].
      split.
      { intros k Hk. destruct k as [|[|k]]; [lia|done|].
        rewrite passed_from_shift by lia. rewrite <- Hw1. apply Hearlier. lia. }
      destruct (finalTestsPassed r).
      * destruct Hfinal as (Hn1 & Hpn & Hatt & Hlast).
        split; [lia|].
        rewrite passed_from_shift, result_from_shift by lia.
        rewrite <- Hw1. split_and!; try done.
        rewrite Hatt. f_equal. lia.
      * destruct Hfinal as (-> & Hpn & Hatt & Hlast).
        split_and!; try done.
        -- intros _. destruct remaining as [|remaining]; [done|].
           rewrite passed_from_shift by lia. rewrite <- Hw1. apply Hpn. lia.
        -- destruct remaining as [|remaining]; [by rewrite Hlast|].
           rewrite result_from_shift by lia. by rewrite <- Hw1.
Qed.

(** C8. [runCIFixWithRetries] returns after some number [n] of rounds
    (banner, [runCIFix], re-run of the configured test command), with
    [n] at most [maxRetries]; the re-run failed after every round before
    the [n]-th, and nothing happens after the re-run of round [n]. When
    the result says [finalTestsPassed = true], round [n] is the first
    whose re-run passed and [attempts = n]; when it says
    [finalTestsPassed = false], all [maxRetries] rounds were run, none
    of their re-runs passed, and [attempts = maxRetries]. *)
Theorem runCIFixWithRetries_rounds options w :
  let config := createCIConfig options in
  let maxRetries := ci_maxRetries config in
  ∃ r w' n,
    runCIFixWithRetries E options w = (Ok r, w')
    ∧ w' = after_rounds E options n w
    ∧ rounds_started (trace w') = n + rounds_started (trace w)
    ∧ (Z.of_nat n ≤ Z.max 0 maxRetries)%Z
    ∧ (∀ k, 1 ≤ k < n → retest_passed E options k w = false)
    ∧ (1 ≤ n →
       ∃ res, head (trace w') = Some (EvExec (Some (ci_testCommand config)) res))
    ∧ if finalTestsPassed r
      then 1 ≤ n
           ∧ retest_passed E options n w = true
           ∧ attempts r = Z.of_nat n
           ∧ lastResult r = nth_round_result E options n w
      else Z.of_nat n = Z.max 0 maxRetries
           ∧ (1 ≤ n → retest_passed E options n w = false)
           ∧ attempts r = maxRetries.
Proof.
  cbv zeta.
  unfold runCIFixWithRetries, after_rounds, retest_passed, nth_round_result.
  destruct (retryLoop_spec options
              (Z.to_nat (ci_maxRetries (createCIConfig options))) 0 None w)
    as (r & w' & n & Hloop & Hw' & Hn & Hearlier & Hfinal).
  exists r, w', n. split; [done|]. split; [done|].
  split; [by rewrite Hw', rounds_from_started|].
  split; [lia|]. split; [done|].
  split; [intros Hn1; rewrite Hw'; by apply rounds_from_head|].
  destruct (finalTestsPassed r).
  - destruct Hfinal as (? & ? & -> & ?). by split_and!.
  - destruct Hfinal as (-> & ? & ? & ?). split_and!; [lia|done..].
Qed.

End DriverFacts.

(* ====================================================================== *)
(** * The model at work *)
(* ====================================================================== *)

(** Scenario D: the first round repairs the file; the loop stops there. *)
Example retries_stop_at_first_success :
  ∃ r w',
    runCIFixWithRetries E_good ci_defaults w_bad = (Ok r, w')
    ∧ finalTestsPassed r = true
    ∧ attempts r = 1%Z
    ∧ rounds_started (trace w') = 1
    ∧ disk w' !! cart_js = Some (lit "good").
Proof. by vm_compute; eexists _, _. Qed.

(** Scenario E: no round passes; the loop gives up after three. *)
Example retries_exhausted :
  ∃ r w',
    runCIFixWithRetries E_hopeless ci_defaults w_bad = (Ok r, w')
    ∧ finalTestsPassed r = false
    ∧ attempts r = 3%Z
    ∧ rounds_started (trace w') = 3
    ∧ disk w' !! cart_js = Some (lit "bad").
Proof. by vm_compute; eexists _, _. Qed.

(** C1, as stated, fails: when the write that puts the original content
    back faults, [fixBug] still returns (a failure result), and the file
    is left holding the patch that did not pass the tests. *)
Lemma fixBug_rollback_fault_leaves_patch :
  ∃ r w',
    fixBug E_rollback_fault cart_js [] fix_defaults w_bad = (Ok r, w')
    ∧ success r = false
    ∧ In (EvExec (Some (lit "npm test")) (Throw tests_fail)) (trace w')
    ∧ disk w_bad !! cart_js = Some (lit "bad")
    ∧ disk w' !! cart_js = Some (lit "worse")
    ∧ disk w' !! cart_js ≠ disk w_bad !! cart_js.
Proof.
  eexists _, _. split; [by vm_compute|].
  split_and!; try by vm_compute.
  vm_compute. tauto.
Qed.

Lemma fixBug_leaves_patch_or_original_witness :
  disk w_bad !! cart_js = Some (lit "bad")
  ∧ ∃ r w',
      fixBug E_good cart_js [] fix_defaults w_bad = (Ok r, w')
      ∧ (∀ g, g ≠ cart_js → disk w' !! g = disk w_bad !! g).
Proof.
  assert (disk w_bad !! cart_js = Some (lit "bad")) as Hdisk by reflexivity.
  split; [exact Hdisk|].
  destruct (fixBug_leaves_patch_or_original E_good cart_js [] fix_defaults
              w_bad (lit "bad") Hdisk)
    as (r & w' & new & Hrun & _ & Hothers & _).
  exists r, w'. split; [exact Hrun | exact Hothers].
Defined.

(** C2, as stated, fails: a fault of the rollback write does not leave
    [fixBug]; the call returns a failure result carrying the fault's
    message. *)
Lemma fixBug_swallows_rollback_fault :
  ∃ r w',
    fixBug E_rollback_fault cart_js [] fix_defaults w_bad = (Ok r, w')
    ∧ In (EvWrite cart_js (lit "bad") (Some eio)) (trace w')
    ∧ success r = false
    ∧ error r = Some (message eio).
Proof.
  eexists _, _. split; [by vm_compute|].
  split_and!; try by vm_compute.
  vm_compute. tauto.
Qed.

(** C3, as stated, fails: with the GitHub cost tracker unavailable the
    proposer call completes and nothing is recorded anywhere. *)
Lemma proposer_cost_not_recorded :
  let w' := snd (fixBug E_no_tracker cart_js [] fix_defaults w_bad) in
  (∃ resp, In (EvGenerate (Ok resp)) (trace w'))
  ∧ ∀ agent p c m flt, ¬ In (EvTrackCost agent p c m flt) (trace w').
Proof.
  vm_compute. split.
  - eexists. do 4 right. left. reflexivity.
  - intros agent p c m flt Hin.
    repeat (destruct Hin as [Hin|Hin]; [discriminate Hin|]). exact Hin.
Qed.

(** Where the tracker is available the usage is reported whether the
    attempt ends in a success or in a rollback. *)
Example usage_tracked_whatever_the_outcome :
  let tracked E :=
    In (EvTrackCost (lit "bugFixer") 100 50 None None)
       (trace (snd (fixBug E cart_js [] fix_defaults w_bad))) in
  let succeeded E :=
    match fst (fixBug E cart_js [] fix_defaults w_bad) with
    | Ok r => success r
    | Throw _ => false
    end in
  (succeeded E_good = true ∧ tracked E_good)
  ∧ (succeeded E_hopeless = false ∧ tracked E_hopeless).
Proof. vm_compute. tauto. Qed.

(** C6, as stated, fails: an answer with no code in it is written to the
    file; when the test command passes the attempt is a success and the
    file is left empty. *)
Lemma fixBug_writes_empty_patch :
  extractCleanCode fenced_nothing = []
  ∧ ∃ r w',
      fixBug E_empty cart_js [] fix_defaults w_bad = (Ok r, w')
      ∧ success r = true
      ∧ fixedCode r = Some []
      ∧ disk w_bad !! cart_js = Some (lit "bad")
      ∧ disk w' !! cart_js = Some [].
Proof.
  split; [by vm_compute|].
  eexists _, _. split; [by vm_compute|].
  split_and!; by vm_compute.
Qed.

Lemma fixBug_empty_patch_witness :
  disk w_bad !! cart_js = Some (lit "bad")
  ∧ ∃ r w' new,
      fixBug E_empty cart_js [] fix_defaults w_bad = (Ok r, w')
      ∧ trace w' = new ++ trace w_bad
      ∧ In (EvWrite cart_js [] None) new
      ∧ In (EvExec (Some (lit "npm test")) (Ok (lit "PASS"))) new
      ∧ success r = true
      ∧ disk w' !! cart_js = Some [].
Proof.
  assert (disk w_bad !! cart_js = Some (lit "bad")) as Hdisk by reflexivity.
  split; [exact Hdisk|].
  destruct (fixBug_empty_patch E_empty cart_js [] fix_defaults w_bad (lit "bad") Hdisk)
    as (r & w' & new & Hrun & Htrace & Hfacts & _).
  exists r, w', new. split; [exact Hrun|]. split; [exact Htrace|].
  set (w1 := snd (createFixConfig E_empty fix_defaults w_bad)).
  set (w2 := snd (analyzeAndFix E_empty (lit "bad") cart_js [] plain_config
                    (emit (EvRead cart_js (Ok (lit "bad"))) w1))).
  assert (createFixConfig E_empty fix_defaults w_bad = (Ok plain_config, w1))
    as Hconfig by (by vm_compute).
  assert (env_readFault E_empty (tick w1) cart_js = None) as Hread
    by reflexivity.
  assert (analyzeAndFix E_empty (lit "bad") cart_js [] plain_config
            (emit (EvRead cart_js (Ok (lit "bad"))) w1) = (Ok [], w2))
    as Hfix by (by vm_compute).
  destruct (Hfacts plain_config w1 w2 Hconfig Hread Hfix) as (Hwrite & Htests & _).
  destruct (Htests eq_refl) as (Hexec & Hpass & Hleft).
  assert (success r = true) as Hok.
  { apply Hpass. exists (lit "PASS"). by vm_compute. }
  split; [exact Hwrite|]. split; [exact Hexec|]. split; [exact Hok|].
  exact (proj2 (Hleft Hok)).
Defined.

Lemma cost_recorded_when_tracker_available_witness :
  let run := analyzeAndFix E_good (lit "bad") cart_js [] plain_config w_bad in
  let w1 := snd (buildBugFixPrompt E_good (lit "bad") cart_js [] w_bad) in
  let chk := {| gc_allowed := true; gc_reason := None;
                gc_estimate := lit "0.0010" |} in
  let resp := {| text := good_answer;
                 usage := Some {| promptTokens := Some 100%N;
                                  completionTokens := Some 50%N |} |} in
  (buildBugFixPrompt E_good (lit "bad") cart_js [] w_bad
   = (Ok (lit "Fix the bug"), w1)
   ∧ env_costGate E_good (tick w1) None (lit "bad") None = Ok chk
   ∧ gc_allowed chk = true
   ∧ env_generateText E_good (S (tick w1))
       {| rq_model := None; rq_prompt := lit "Fix the bug";
          rq_maxTokens := None; rq_temperature := None |} = Ok resp)
  ∧ In (EvTrackCost (lit "bugFixer") 100 50 None None) (trace (snd run))
  ∧ fst run = Ok (lit "good").
Proof.
  cbv zeta.
  set (w1 := snd (buildBugFixPrompt E_good (lit "bad") cart_js [] w_bad)).
  assert (buildBugFixPrompt E_good (lit "bad") cart_js [] w_bad
          = (Ok (lit "Fix the bug"), w1)) as Hprompt by (by vm_compute).
  assert (env_costGate E_good (tick w1) None (lit "bad") None
          = Ok {| gc_allowed := true; gc_reason := None;
                  gc_estimate := lit "0.0010" |}) as Hgate by reflexivity.
  assert (env_generateText E_good (S (tick w1))
            {| rq_model := None; rq_prompt := lit "Fix the bug";
               rq_maxTokens := None; rq_temperature := None |}
          = Ok {| text := good_answer;
                  usage := Some {| promptTokens := Some 100%N;
                                   completionTokens := Some 50%N |} |})
    as Hgen by reflexivity.
  split; [by split_and!|].
  destruct (proj1 (cost_recorded_when_tracker_available E_good
                     (lit "bad") cart_js [] plain_config w_bad)
              _ _ _ _ Hprompt Hgate eq_refl Hgen) as [Htrace Hresult].
  split.
  - rewrite Htrace. left. reflexivity.
  - rewrite Hresult. by vm_compute.
Defined.

(* ====================================================================== *)
(** * Further properties: the pure functions of bug-fixer.js *)
(* ====================================================================== *)

Section CountingFacts.
Context {A : Type} `{EqDecision A}.

(** The counting loop adds one for every position that differs. *)
Lemma count_loop_filter (xs ys : list A) (idx : list nat) (acc : nat) :
  foldl (λ changes i, if decide (xs !! i = ys !! i) then changes else S changes)
        acc idx
  = acc + length (filter (λ i, xs !! i ≠ ys !! i) idx).
Proof.
  revert acc. induction idx as [|j idx IH]; intros acc; cbn [foldl].
  - cbn. lia.
  - rewrite IH, filter_cons.
    destruct (decide (xs !! j = ys !! j)), (decide (xs !! j ≠ ys !! j));
      cbn [length]; try lia; done.
Qed.

Lemma filter_all_length (P : nat → Prop) `{∀ i, Decision (P i)} (l : list nat) :
  (∀ i, i ∈ l → P i) → length (filter P l) = length l.
Proof.
  induction l as [|j l IH]; intros Hall; [done|].
  rewrite filter_cons, decide_True by (apply Hall; by left).
  cbn [length]. rewrite IH; [done|]. intros i Hi. apply Hall. by right.
Qed.

Lemma differ_past_shorter (xs ys : list A) (i : nat) :
  min (length xs) (length ys) ≤ i < max (length xs) (length ys) →
  xs !! i ≠ ys !! i.
Proof.
  intros Hi Heq.
  destruct (decide (length xs ≤ length ys)).
  - rewrite (lookup_ge_None_2 xs) in Heq by lia.
    symmetry in Heq. apply lookup_ge_None in Heq. lia.
  - rewrite (lookup_ge_None_2 ys) in Heq by lia.
    apply lookup_ge_None in Heq. lia.
Qed.

End CountingFacts.

(** X1. [countChangedLines] does not depend on the order of its two
    arguments. *)
Theorem countChangedLines_sym (a b : jsstring) :
  countChangedLines a b = countChangedLines b a.
Proof.
  unfold countChangedLines. rewrite !count_loop_filter, Nat.max_comm.
  f_equal. f_equal. apply list_filter_iff. intros i. split; intros Hne Heq; by apply Hne.
Qed.

(** X2. The count lies between the difference and the larger of the two
    line counts: every line that only the longer text has counts as
    changed, and no position counts twice. *)
Theorem countChangedLines_bounds (a b : jsstring) :
  let la := length (split nl a) in
  let lb := length (split nl b) in
  max la lb - min la lb ≤ countChangedLines a b ≤ max la lb.
Proof.
  cbv zeta. unfold countChangedLines. rewrite count_loop_filter. cbn [Nat.add].
  set (xs := split nl a). set (ys := split nl b).
  set (lo := min (length xs) (length ys)).
  set (hi := max (length xs) (length ys)).
  split.
  - replace hi with (lo + (hi - lo)) at 2 by lia.
    rewrite seq_app, filter_app, length_app.
    rewrite (filter_all_length _ (seq (0 + lo) (hi - lo))).
    + rewrite length_seq. lia.
    + intros i Hi. apply elem_of_seq in Hi. apply differ_past_shorter. lia.
  - etrans; [apply length_filter|]. by rewrite length_seq.
Qed.

Section TrimFacts.

Lemma length_trimStart (s : jsstring) : length (trimStart s) ≤ length s.
Proof.
  induction s as [|c tl IH]; [done|]. cbn [trimStart].
  destruct (is_ws c); cbn [length]; lia.
Qed.

Lemma length_trimEnd (s : jsstring) : length (trimEnd s) ≤ length s.
Proof.
  induction s as [|c tl IH]; [done|]. cbn [trimEnd].
  destruct (trimEnd tl); [destruct (is_ws c)|]; cbn [length] in *; lia.
Qed.

Lemma length_trim (s : jsstring) : length (trim s) ≤ length s.
Proof.
  unfold trim. etrans; [apply length_trimEnd|apply length_trimStart].
Qed.

Lemma length_remove_first (r : regex) (s : jsstring) :
  length (remove_first r s) ≤ length s.
Proof.
  unfold remove_first. destruct (search r s s) as [[i m]|]; [|done].
  rewrite length_app, length_take, length_drop. lia.
Qed.

(** Text that ends in something [trimEnd] keeps is kept whole. *)
Lemma trimEnd_app (x y : jsstring) :
  trimEnd y ≠ [] → trimEnd (x ++ y) = x ++ trimEnd y.
Proof.
  intros Hy. induction x as [|c x IH]; [done|].
  cbn [app trimEnd]. rewrite IH. by destruct (x ++ trimEnd y) eqn:Hxy;
    [apply app_eq_nil in Hxy as [_ ?]|].
Qed.

End TrimFacts.

(** X3. The normalised text is always trimmed (trimming it again changes
    nothing) and never longer than the proposer's answer. *)
Theorem extractCleanCode_trimmed_and_shorter (s : jsstring) :
  trim (extractCleanCode s) = extractCleanCode s
  ∧ length (extractCleanCode s) ≤ length s.
Proof.
  split.
  - unfold extractCleanCode. apply trim_idem.
  - unfold extractCleanCode.
    etrans; [apply length_trim|].
    destruct (startsWith (trim s) fence).
    + etrans; [apply length_remove_first|].
      etrans; [apply length_remove_first|]. apply length_trim.
    + apply length_trim.
Qed.

(* ====================================================================== *)
(** * Further properties: fenced answers *)
(* ====================================================================== *)

Import Behaviour.

Section FenceFacts.

Lemma take_length_diff {A} (pre rest : list A) :
  take (length (pre ++ rest) - length rest) (pre ++ rest) = pre.
Proof.
  rewrite length_app. replace (length pre + length rest - length rest) with (length pre) by lia.
  by rewrite take_app_length.
Qed.

Lemma close_fence_needs_end (inp s : jsstring) :
  4 < length s → match_at re_close_fence inp s = None.
Proof.
  intros Hlen.
  destruct s as [|c1 [|c2 [|c3 [|c4 [|c5 s]]]]]; cbn [length] in Hlen; try lia.
  unfold match_at, re_close_fence. cbn.
  repeat (case_match; try done).
Qed.

Lemma search_close_fence (inp body : jsstring) :
  search re_close_fence inp (body ++ close_tail)
  = Some (length inp - 4, {| matched := close_tail; group1 := None |}).
Proof.
  induction body as [|c body IH].
  - reflexivity.
  - cbn [app search]. rewrite close_fence_needs_end.
    + apply IH.
    + cbn [length]. rewrite length_app. cbn. lia.
Qed.

Lemma remove_close_fence (body : jsstring) :
  remove_first re_close_fence (body ++ close_tail) = body.
Proof.
  unfold remove_first. rewrite search_close_fence.
  cbn [matched]. rewrite length_app.
  replace (length body + length close_tail - 4) with (length body) by (cbn; lia).
  rewrite take_app_length.
  rewrite drop_ge; [by rewrite app_nil_r|]. rewrite length_app. lia.
Qed.

Lemma startsWith_nil (s : jsstring) : startsWith s [] = true.
Proof. by destruct s. Qed.

Lemma startsWith_app (p x : jsstring) : startsWith (p ++ x) p = true.
Proof.
  induction p as [|c p IH]; [apply startsWith_nil|].
  cbn. by rewrite N.eqb_refl.
Qed.

Lemma search_here (r : regex) (inp s : jsstring) m :
  match_at r inp s = Some m → search r inp s = Some (length inp - length s, m).
Proof. intros Hm. destruct s; cbn [search]; by rewrite Hm. Qed.

Lemma remove_open_fence (lang rest : jsstring) :
  lang = [] ∨ lang = lit "js" ∨ lang = lit "javascript" →
  remove_first re_open_fence (fence ++ lang ++ nl :: rest) = rest.
Proof.
  intros Hlang. unfold remove_first.
  rewrite (search_here _ _ _ {| matched := fence ++ lang ++ [nl]; group1 := None |}).
  - rewrite Nat.sub_diag. cbn [matched take app Nat.add].
    replace (fence ++ lang ++ nl :: rest) with ((fence ++ lang ++ [nl]) ++ rest)
      by (by rewrite <- !app_assoc).
    by rewrite drop_app_length.
  - unfold match_at, re_open_fence. cbn [cat run]. rewrite Nat.eqb_refl.
    destruct Hlang as [-> | [-> | ->]].
    all: vm_compute (lit _); change fence with [96; 96; 96]%N; change nl with 10%N.
    all: cbn [app startsWith N.eqb Pos.eqb andb drop length].
    all: rewrite startsWith_nil; cbn [drop]; do 2 f_equal.
    all: match goal with |- _ = ?pre => apply (take_length_diff pre rest) end.
Qed.

Lemma trim_fenced (x : jsstring) : trim (fence ++ x ++ fence) = fence ++ x ++ fence.
Proof.
  unfold trim. change (trimStart (fence ++ x ++ fence)) with (fence ++ x ++ fence).
  rewrite (app_assoc fence x fence). rewrite trimEnd_app; [done|].
  by vm_compute.
Qed.

End FenceFacts.

(** X4. Round trip: a trimmed text put between an opening fence (bare, or
    tagged [js] or [javascript]) on a line of its own and a closing fence
    on a line of its own is recovered exactly by [extractCleanCode]. *)
Theorem extractCleanCode_unfences (lang body : jsstring) :
  lang = [] ∨ lang = lit "js" ∨ lang = lit "javascript" →
  trim body = body →
  extractCleanCode (fence ++ lang ++ [nl] ++ body ++ [nl] ++ fence) = body.
Proof.
  intros Hlang Hbody. unfold extractCleanCode.
  replace (fence ++ lang ++ [nl] ++ body ++ [nl] ++ fence)
    with (fence ++ (lang ++ [nl] ++ body ++ [nl]) ++ fence)
    by (by rewrite <- !app_assoc).
  rewrite trim_fenced.
  rewrite startsWith_app.
  replace (fence ++ (lang ++ [nl] ++ body ++ [nl]) ++ fence)
    with (fence ++ lang ++ nl :: (body ++ close_tail))
    by (unfold close_tail; by rewrite <- !app_assoc).
  by rewrite remove_open_fence, remove_close_fence.
Qed.

Lemma extractCleanCode_unfences_witness :
  (lit "js" = [] ∨ lit "js" = lit "js" ∨ lit "js" = lit "javascript")
  ∧ trim (lit "return 1;") = lit "return 1;"
  ∧ extractCleanCode (fence ++ lit "js" ++ [nl] ++ lit "return 1;" ++ [nl] ++ fence)
    = lit "return 1;".
Proof.
  assert (lit "js" = [] ∨ lit "js" = lit "js" ∨ lit "js" = lit "javascript")
    as Hlang by (right; left; reflexivity).
  assert (trim (lit "return 1;") = lit "return 1;") as Hbody by reflexivity.
  split; [exact Hlang|]. split; [exact Hbody|].
  exact (extractCleanCode_unfences (lit "js") (lit "return 1;") Hlang Hbody).
Defined.

(* ====================================================================== *)
(** * Further properties: reading the test output *)
(* ====================================================================== *)

Section PathFacts.

Lemma startsWith_prefix (s p q : jsstring) :
  startsWith s (p ++ q) = true → startsWith s p = true.
Proof.
  revert s. induction p as [|a p IH]; intros s; [by rewrite startsWith_nil|].
  destruct s as [|b s]; cbn; [done|].
  rewrite !andb_true_iff. intros [? ?]. eauto.
Qed.

Lemma includes_here (s p : jsstring) : startsWith s p = true → includes s p = true.
Proof. intros Hs. destruct s; cbn [includes]; by rewrite Hs. Qed.

Lemma includes_prefix (s p q : jsstring) :
  includes s (p ++ q) = true → includes s p = true.
Proof.
  induction s as [|b s IH]; cbn [includes]; rewrite !orb_true_iff.
  - intros [Hs|?]; [|done]. left. by eapply startsWith_prefix.
  - intros [Hs|Hi]; [left; by eapply startsWith_prefix|right; auto].
Qed.

Lemma includes_tail (s : jsstring) (a : N) (p : jsstring) :
  includes s (a :: p) = true → includes s p = true.
Proof.
  induction s as [|b s IH]; cbn [includes]; rewrite !orb_true_iff.
  - by intros [?|?].
  - intros [Hs|Hi]; right.
    + cbn in Hs. apply andb_true_iff in Hs as [_ Hs]. by apply includes_here.
    + auto.
Qed.

(** A path without [test] in it has no [.test.] in it. *)
Lemma no_test_no_dot_test (s : jsstring) :
  includes s (lit "test") = false → includes s (lit ".test.") = false.
Proof.
  intros Hno. destruct (includes s (lit ".test.")) eqn:Hyes; [|done].
  change (lit ".test.") with (46%N :: (lit "test" ++ [46%N])) in Hyes.
  apply includes_tail, includes_prefix in Hyes. congruence.
Qed.

Lemma dot_slash_starts (m : jsstring) : startsWith (dot_slash m) (lit "./") = true.
Proof.
  unfold dot_slash. destruct (startsWith m (lit "./")) eqn:Hm; [done|].
  apply startsWith_app.
Qed.

Lemma dot_slash_includes (m p : jsstring) :
  p = lit ".test." ∨ p = lit "node_modules" →
  includes (dot_slash m) p = includes m p.
Proof.
  intros Hp. unfold dot_slash. destruct (startsWith m (lit "./")); [done|].
  destruct Hp as [-> | ->]; vm_compute (lit _); cbn [app includes startsWith];
    by destruct m.
Qed.

Lemma Forall_set_add (P : jsstring → Prop) (files : list jsstring) (x : jsstring) :
  Forall P files → P x → Forall P (set_add files x).
Proof.
  intros Hf Hx. unfold set_add. case_decide; [done|].
  apply Forall_app; split; [done|]. by constructor.
Qed.

Lemma extractErrorMessages_filter (output : jsstring) :
  extractErrorMessages output = trim <$> filter (λ l, has_marker l = true) (split nl output).
Proof.
  unfold extractErrorMessages. cbv zeta.
  enough (∀ acc : list jsstring,
    foldl (λ errors line,
             if includes line (lit "Error:") || includes line (lit "Expected")
                || includes line (lit "Received")
             then errors ++ [trim line] else errors) acc (split nl output)
    = acc ++ (trim <$> filter (λ l, has_marker l = true) (split nl output)))
    as Hgen by apply (Hgen []).
  induction (split nl output) as [|l ls IH]; intros acc; cbn [foldl].
  - by rewrite filter_nil, app_nil_r.
  - rewrite IH, filter_cons. fold (has_marker l). destruct (has_marker l) eqn:Hl.
    + rewrite decide_True by done. by rewrite fmap_cons, <- app_assoc.
    + rewrite decide_False by congruence. done.
Qed.

Lemma parseTestOutput_shape_aux (output : jsstring) :
  let f := po_file (parseTestOutput output) in
  startsWith f (lit "./") = true
  ∧ includes f (lit ".test.") = false
  ∧ includes f (lit "node_modules") = false.
Proof.
  cbv zeta. unfold parseTestOutput. cbn [po_file].
  destruct (exec re_stack_frame output ≫= group1) as [m|]; [|by vm_compute].
  destruct (truthy m); [|by vm_compute].
  destruct (negb (includes m (lit ".test."))) eqn:H1; [|by vm_compute].
  destruct (negb (includes m (lit "node_modules"))) eqn:H2; [|by vm_compute].
  cbn [andb]. apply negb_true_iff in H1, H2.
  rewrite dot_slash_starts, !dot_slash_includes by auto. done.
Qed.

Lemma identifyFilesToFix_fixable_aux (d : gmap jsstring jsstring)
    (output : jsstring) :
  Forall (λ f, is_Some (d !! f)
               ∧ startsWith f (lit "./") = true
               ∧ includes f (lit ".test.") = false
               ∧ includes f (lit "node_modules") = false)
         (identifyFilesToFix d output).
Proof.
  unfold identifyFilesToFix.
  apply foldl_invariant.
  - destruct (_ && _) eqn:Hp; [|constructor].
    apply andb_true_iff in Hp as [_ Hp].
    apply Forall_set_add; [constructor|].
    split; [|apply parseTestOutput_shape_aux].
    unfold fileExistsOn in Hp. by apply bool_decide_eq_true in Hp.
  - intros files m Hfiles. cbv zeta.
    destruct (_ && _) eqn:Hvalid; [|done].
    destruct (fileExistsOn _ _) eqn:Hp; [|done].
    apply andb_true_iff in Hvalid as [H1 H2]. apply negb_true_iff in H1, H2.
    apply Forall_set_add; [done|].
    unfold fileExistsOn in Hp. apply bool_decide_eq_true in Hp.
    rewrite dot_slash_starts, !dot_slash_includes by auto.
    auto using no_test_no_dot_test.
Qed.

End PathFacts.

(** X5. Whatever the test output, the file [parseTestOutput] names starts
    with [./] and is neither a test file nor under [node_modules]. *)
Theorem parseTestOutput_file_shape (output : jsstring) :
  let f := po_file (parseTestOutput output) in
  startsWith f (lit "./") = true
  ∧ includes f (lit ".test.") = false
  ∧ includes f (lit "node_modules") = false.
Proof. apply parseTestOutput_shape_aux. Qed.

(** X6. Every path [identifyFilesToFix] returns exists in the working
    tree, starts with [./], and is neither a test file nor under
    [node_modules]. *)
Theorem identifyFilesToFix_only_fixable (d : gmap jsstring jsstring)
    (output : jsstring) :
  Forall (λ f, is_Some (d !! f)
               ∧ startsWith f (lit "./") = true
               ∧ includes f (lit ".test.") = false
               ∧ includes f (lit "node_modules") = false)
         (identifyFilesToFix d output).
Proof. apply identifyFilesToFix_fixable_aux. Qed.

(** X7. The error messages are the lines of the output that contain
    [Error:], [Expected] or [Received], each trimmed, in the order of the
    output and with repetitions kept; trimming a message again changes
    nothing. *)
Theorem extractErrorMessages_marked_lines (output : jsstring) :
  extractErrorMessages output
  = trim <$> filter (λ line, includes line (lit "Error:") = true
                             ∨ includes line (lit "Expected") = true
                             ∨ includes line (lit "Received") = true)
                    (split nl output)
  ∧ Forall (λ m, trim m = m) (extractErrorMessages output).
Proof.
  rewrite extractErrorMessages_filter. split.
  - f_equal. apply list_filter_iff. intros line.
    unfold has_marker. rewrite !orb_true_iff. tauto.
  - apply Forall_fmap, Forall_forall. intros line _. apply trim_idem.
Qed.

(* ====================================================================== *)
(** * Further properties: the cost monitor *)
(* ====================================================================== *)

(** X8. [estimateTokens] is the least number of four-character tokens that
    cover the text: it is at most [t] exactly when the length is at most
    [4 * t]. *)
Theorem estimateTokens_least (n t : nat) :
  estimateTokens n ≤ t ↔ n ≤ 4 * t.
Proof.
  unfold estimateTokens.
  pose proof (Nat.div_mod_eq n 4) as Hdiv.
  pose proof (Nat.mod_upper_bound n 4) as Hmod.
  destruct (n mod 4 =? 0) eqn:Hz.
  - apply Nat.eqb_eq in Hz. lia.
  - apply Nat.eqb_neq in Hz. lia.
Qed.

Section MoreTrackerFacts.
Context {num : Type} `{JSNumber num}.

Lemma checkAndResetDaily_lastReset today (t : Tracker num) :
  lastReset (checkAndResetDaily today t) = today.
Proof. unfold checkAndResetDaily. case_decide; [done|]. by destruct (decide (today = lastReset t)). Qed.

Lemma checkAndResetDaily_idem today (t : Tracker num) :
  checkAndResetDaily today (checkAndResetDaily today t)
  = checkAndResetDaily today t.
Proof.
  unfold checkAndResetDaily at 1.
  rewrite checkAndResetDaily_lastReset. by rewrite decide_False by auto.
Qed.

(** X9. [canAfford] is a query: asking twice gives the same answer and
    the same tracker, asking before [recordFix] does not change what is
    recorded, and the two limits are never touched. *)
Theorem canAfford_does_not_spend today est cost (t : Tracker num) :
  canAfford today est (snd (canAfford today est t)) = canAfford today est t
  ∧ recordFix today cost (snd (canAfford today est t)) = recordFix today cost t
  ∧ dailyLimit (snd (canAfford today est t)) = dailyLimit t
  ∧ perFixLimit (snd (canAfford today est t)) = perFixLimit t.
Proof.
  unfold canAfford, recordFix. cbn [snd].
  rewrite checkAndResetDaily_idem. split_and!; try done.
  all: unfold checkAndResetDaily; by case_decide.
Qed.

(** X10. After one or more calls of [recordFix] on the same day, the
    fix count is the count the day started with (0 if the day is new)
    plus the number of calls, the spend is the sum of the costs added in
    order to the spend the day started with, the tracker is dated today
    and the limits are as before. *)
Theorem recordFix_accumulates today cost costs (t : Tracker num) :
  let t0 := checkAndResetDaily today t in
  let t' := recordAll today (cost :: costs) t in
  fixCount t' = fixCount t0 + S (length costs)
  ∧ dailySpend t' = foldl nadd (dailySpend t0) (cost :: costs)
  ∧ lastReset t' = today
  ∧ dailyLimit t' = dailyLimit t
  ∧ perFixLimit t' = perFixLimit t.
Proof.
  cbv zeta. unfold recordAll. cbn [foldl].
  assert (∀ costs (t1 : Tracker num),
            lastReset t1 = today →
            let t' := foldl (λ t cost, snd (recordFix today cost t)) t1 costs in
            fixCount t' = fixCount t1 + length costs
            ∧ dailySpend t' = foldl nadd (dailySpend t1) costs
            ∧ lastReset t' = today
            ∧ dailyLimit t' = dailyLimit t1
            ∧ perFixLimit t' = perFixLimit t1) as Hsame.
  { clear. intros costs. induction costs as [|c costs IH]; intros t1 Hday; cbn [foldl length].
    - split_and!; [lia|done..].
    - destruct (IH (snd (recordFix today c t1))) as (Hn & Hs & Hd & Hl & Hp).
      + unfold recordFix. cbn. apply checkAndResetDaily_lastReset.
      + cbv zeta in *. rewrite Hn, Hs, Hd, Hl, Hp.
        unfold recordFix, checkAndResetDaily. cbn.
        rewrite decide_False by (rewrite Hday; auto).
        split_and!; [lia|done..]. }
  destruct (Hsame costs (snd (recordFix today cost t))) as (Hn & Hs & Hd & Hl & Hp).
  { unfold recordFix. cbn. apply checkAndResetDaily_lastReset. }
  cbv zeta in *. rewrite Hn, Hs, Hd, Hl, Hp.
  unfold recordFix. cbn.
  split_and!; [lia|done|done|..]; unfold checkAndResetDaily; by case_decide.
Qed.

(** X11. On the first call of a new day the tracker starts afresh: the
    budget check sees a spend of zero and leaves the tracker exactly as
    [reset] would, and a recorded fix is fix number one. *)
Theorem tracker_new_day today est (t : Tracker num) :
  today ≠ lastReset t →
  ac_dailySpend (fst (canAfford today est t)) = nzero
  ∧ allowed (fst (canAfford today est t))
    = nle (nadd nzero est) (dailyLimit t) && nle est (perFixLimit t)
  ∧ snd (canAfford today est t) = reset today t
  ∧ fs_fixCount (fst (recordFix today est t)) = 1.
Proof.
  intros Hday. unfold canAfford, recordFix, checkAndResetDaily, reset.
  rewrite decide_True by done. by cbn.
Qed.

End MoreTrackerFacts.

Lemma tracker_new_day_witness :
  lit "Tue Jan 07 2025" ≠ lastReset monday_tracker
  ∧ snd (canAfford (lit "Tue Jan 07 2025") 1%Z monday_tracker)
    = reset (lit "Tue Jan 07 2025") monday_tracker.
Proof.
  assert (lit "Tue Jan 07 2025" ≠ lastReset monday_tracker) as Hday
    by (by vm_compute).
  split; [exact Hday|].
  exact (proj1 (proj2 (proj2
           (tracker_new_day (lit "Tue Jan 07 2025") 1%Z monday_tracker Hday)))).
Defined.

(* ====================================================================== *)
(** * Further properties: the fix engine *)
(* ====================================================================== *)

Section Returns.
Context {A : Type} (P : A → Prop).

Lemma returns_ret (a : A) : P a → returns P (ret a).
Proof. intros Ha w a' [= <-]. done. Qed.

Lemma returns_throw (e : Error) : returns P (throw e).
Proof. by intros w a. Qed.

Lemma returns_bind {B} (m : IO B) (f : B → IO A) :
  (∀ b, returns P (f b)) → returns P (bind m f).
Proof.
  intros Hf w a. unfold bind. destruct (m w) as [[b|e] w1]; [apply Hf|done].
Qed.

Lemma returns_try_catch (m : IO A) (h : Error → IO A) :
  returns P m → (∀ e, returns P (h e)) → returns P (try_catch m h).
Proof.
  intros Hm Hh w a. unfold try_catch. specialize (Hm w).
  destruct (m w) as [[b|e] w1]; [auto|apply Hh].
Qed.
End Returns.

Ltac returns_step :=
  first
    [ apply returns_throw
    | apply returns_bind; intros ?
    | apply returns_try_catch; [|intros ?]
    | match goal with
      | |- returns _ (if ?b then _ else _) => destruct b
      end ].

(** Settle statements about an explicit transcript. *)
Ltac transcript_facts :=
  repeat match goal with
         | |- _ ∧ _ => split
         | |- _ ↔ _ => split
         | |- ¬ _ => intros ?
         | |- _ → _ => intros ?
         | |- ∀ _, _ => intros ?
         | H : ∃ _, _ |- _ => destruct H as [? H]
         | H : _ ∧ _ |- _ => destruct H as [? ?]
         | H : In _ _ |- _ => progress in_cases H
         | H : ?a = ?a → _ |- _ => specialize (H eq_refl)
         | |- ∃ _, In _ _ =>
             solve [eexists; cbn [In]; repeat first [left; reflexivity | right]]
         | |- is_Some (Some _) => by eexists
         end; try done.

Section MoreEngineFacts.
Context {num : Type} `{JSNumber num} (E : Env num).

(** X12. [runTests] never throws and touches nothing but the child
    process: it reports success exactly when the command exits normally;
    on a failure the error text is the child's stderr, or the message of
    the error when stderr is empty or missing, and the output is the
    child's stdout. *)
Theorem runTests_reports_the_exit_status cmd w :
  ∃ t res,
    runTests E cmd w = (Ok t, emit (EvExec cmd res) w)
    ∧ res = env_execSync E (tick w) (disk w) cmd
    ∧ (tr_success t = true ↔ ∃ out, res = Ok out)
    ∧ (tr_success t = true → tr_error t = None)
    ∧ (tr_success t = false →
       ∃ e, res = Throw e
            ∧ tr_error t
              = Some (match err_stderr e with
                      | Some (c :: s) => c :: s
                      | _ => message e
                      end)
            ∧ tr_output t = default [] (err_stdout e)).
Proof.
  rewrite runTests_run. eexists _, _. split; [reflexivity|]. split; [done|].
  destruct (env_execSync E (tick w) (disk w) cmd) as [out|e]; cbn.
  - split_and!; [split; eauto|done|done].
  - split_and!; [split; [done|by intros [? ?]]|done|]. intros _. exists e. split; [done|].
    split; [by destruct (err_stderr e) as [[|]|]|by destruct (err_stdout e) as [[|]|]].
Qed.

Lemma fixBug_returns f em opts :
  returns (λ r, filename r = f ∧ (success r = false → failure_shape r))
          (fixBug E f em opts).
Proof.
  unfold fixBug. repeat returns_step.
  all: apply returns_ret; cbn; unfold failure_shape; cbn; split; try done.
  all: intros _; split_and!; done.
Qed.

(** X13. What a result of [fixBug] carries: always the file name it was
    called with; on success the content the file had before, the content
    it has now, and [linesChanged] equal to [countChangedLines] of the
    two; on failure no code, no line count, and an error message. *)
Theorem fixBug_result_fields f em opts w :
  ∃ r w',
    fixBug E f em opts w = (Ok r, w')
    ∧ filename r = f
    ∧ (success r = true →
       ∃ original patch,
         disk w !! f = Some original
         ∧ disk w' !! f = Some patch
         ∧ originalCode r = Some original
         ∧ fixedCode r = Some patch
         ∧ linesChanged r = Some (countChangedLines original patch))
    ∧ (success r = false →
       originalCode r = None ∧ fixedCode r = None ∧ linesChanged r = None
       ∧ is_Some (error r)).
Proof.
  destruct (fixBug_paths E f em opts w) as (r & w' & new & Hrun & _ & Hpath).
  exists r, w'. split; [done|].
  destruct (fixBug_returns f em opts w r) as [Hname Hfail];
    [by rewrite Hrun|].
  split; [done|]. split; [|done].
  intros Hok. destruct Hpath; try congruence.
  eexists _, _. split_and!; try done.
  match goal with Hd : disk _ = _ |- _ => rewrite Hd end.
  apply lookup_insert_eq.
Qed.

(** X14. When the target file is missing, or the budget gate does not
    let the call through, the attempt fails without the proposer being
    called, without any write and without any test run, and the working
    tree is as before; a missing file is not even read. *)
Theorem fixBug_stops_before_the_proposer f em opts w :
  ∃ r w' new,
    fixBug E f em opts w = (Ok r, w')
    ∧ trace w' = new ++ trace w
    ∧ (disk w !! f = None ∨ In (EvCostGate false) new →
       success r = false
       ∧ disk w' = disk w
       ∧ (∀ g, ¬ In (EvGenerate g) new)
       ∧ (∀ g c flt, ¬ In (EvWrite g c flt) new)
       ∧ (∀ cmd res, ¬ In (EvExec cmd res) new))
    ∧ (disk w !! f = None → ∀ g res, ¬ In (EvRead g res) new).
Proof.
  io_unfold. cbn [disk tick trace].
  io_step.
  2:{ eexists _, _, _. split; [reflexivity|]. split; [trace_eq|]. transcript_facts. }
  cbn [fst snd disk tick trace].
  unfold fileExistsOn. destruct (disk w !! f) as [original|] eqn:Hdisk.
  2:{ rewrite bool_decide_eq_false_2 by apply is_Some_None.
      eexists _, _, _. split; [reflexivity|]. split; [trace_eq|]. transcript_facts. }
  rewrite bool_decide_eq_true_2 by eauto.
  io_simpl.
  repeat first [ rewrite Hdisk | io_step ].
  all: eexists _, _, _; (split; [reflexivity|]); (split; [trace_eq|]).
  all: split; [|done].
  all: intros [?|Hgate]; [done|]; in_cases Hgate.
  all: transcript_facts.
Qed.

(** X15. The single-file command always ends with exit code 0 or 1. It
    is 0 exactly when a non-empty file name was given, the file exists
    and [fixBug] on it (with the error message, or the empty string, and
    default options) succeeds. Without a file name, or with a file that
    does not exist, it is 1 and nothing at all has happened. *)
Theorem cli_main_exit_code argv w :
  ∃ code w',
    BugFixer.main E argv w = (Ok code, w')
    ∧ (code = 0%Z ∨ code = 1%Z)
    ∧ (code = 0%Z ↔
       ∃ f r,
         argv !! 2 = Some f ∧ f ≠ [] ∧ is_Some (disk w !! f)
         ∧ fst (fixBug E f (default [] (argv !! 3)) no_options w) = Ok r
         ∧ success r = true)
    ∧ ((∀ f, argv !! 2 = Some f → f = [] ∨ disk w !! f = None) →
       code = 1%Z ∧ w' = w).
Proof.
  unfold BugFixer.main, parseCliArgs.
  cbn [hasFilename cli_filename cli_errorMessage].
  replace (or_else (argv !! 3) []) with (default [] (argv !! 3))
    by by destruct (argv !! 3) as [[|]|].
  destruct (argv !! 2) as [[|c f]|] eqn:Hf; cbn [truthy negb].
  1,3: exists 1%Z, w; split; [done|]; split; [auto|]; split;
       [split; [done|intros (? & ? & ? & ? & _); congruence]|done].
  change (default [] (Some (c :: f))) with (c :: f).
  unfold bind at 1, fileExists, with_disk, fileExistsOn.
  destruct (disk w !! (c :: f)) as [content|] eqn:Hdisk.
  - rewrite bool_decide_eq_true_2 by eauto. cbn [negb]. unfold bind.
    destruct (no_throw_fixBug E (c :: f) (default [] (argv !! 3)) no_options w)
      as [r Hr].
    destruct (fixBug E (c :: f) (default [] (argv !! 3)) no_options w)
      as [[r'|e] w1] eqn:Hrun; cbn [fst] in Hr; [|done].
    injection Hr as ->.
    destruct (success r) eqn:Hok.
    + exists 0%Z, w1. split; [done|]. split; [auto|]. split.
      * split; [|done]. intros _. exists (c :: f), r. by rewrite Hrun.
      * intros Hno. destruct (Hno (c :: f)) as [?|?]; congruence.
    + exists 1%Z, w1. split; [done|]. split; [auto|]. split.
      * split; [done|]. intros (f' & r' & [= <-] & _ & _ & Hr' & Hs).
        rewrite Hrun in Hr'. cbn in Hr'. congruence.
      * intros Hno. destruct (Hno (c :: f)) as [?|?]; congruence.
  - rewrite bool_decide_eq_false_2 by apply is_Some_None. cbn [negb].
    exists 1%Z, w. split; [done|]. split; [auto|]. split; [|done].
    split; [done|]. intros (f' & r' & [= <-] & _ & [? ?] & _). congruence.
Qed.

(** X16. The file configuration wins: a key that the loaded
    configuration has is taken from it whatever the options say; an
    option is used only for a key the configuration lacks, and, except
    for the temperature, only when it is not empty or zero. *)
Theorem createFixConfig_file_config_wins options w rc :
  let path := or_else (fo_configPath options) (lit ".agent-config.json") in
  env_getConfig E (tick w) path = Ok rc →
  ∃ cfg,
    createFixConfig E options w = (Ok cfg, emit (EvGetConfig path) w)
    ∧ (is_Some (rc_model rc) → cfg_model cfg = rc_model rc)
    ∧ (is_Some (rc_maxTokens rc) → cfg_maxTokens cfg = rc_maxTokens rc)
    ∧ (is_Some (rc_temperature rc) → cfg_temperature cfg = rc_temperature rc)
    ∧ (is_Some (rc_maxRetries rc) → cfg_maxRetries cfg = rc_maxRetries rc)
    ∧ (is_Some (rc_testCommand rc) → cfg_testCommand cfg = rc_testCommand rc)
    ∧ (rc_model rc = None →
       cfg_model cfg
       = match fo_model options with
         | Some (c :: m) => Some (c :: m)
         | _ => None
         end)
    ∧ (rc_testCommand rc = None →
       cfg_testCommand cfg
       = match fo_testCommand options with
         | Some (c :: m) => Some (c :: m)
         | _ => None
         end)
    ∧ (rc_maxTokens rc = None →
       cfg_maxTokens cfg
       = match fo_maxTokens options with
         | Some n => if ntruthy n then Some n else None
         | None => None
         end)
    ∧ (rc_maxRetries rc = None →
       cfg_maxRetries cfg
       = match fo_maxRetries options with
         | Some n => if ntruthy n then Some n else None
         | None => None
         end)
    ∧ (rc_temperature rc = None → cfg_temperature cfg = fo_temperature options).
Proof.
  cbv zeta. intros Hcfg.
  unfold createFixConfig, getConfig, bind, ret. rewrite Hcfg.
  eexists. split; [reflexivity|].
  cbn [cfg_model cfg_maxTokens cfg_temperature cfg_maxRetries cfg_testCommand].
  split_and!.
  1-5: intros [x Hx]; rewrite Hx; reflexivity.
  - intros ->. by destruct (fo_model options) as [[|]|].
  - intros ->. by destruct (fo_testCommand options) as [[|]|].
  - intros ->. destruct (fo_maxTokens options) as [n|]; [|done].
    cbn [spread_over num_or_undef].
    by destruct (ntruthy n).
  - intros ->. destruct (fo_maxRetries options) as [n|]; [|done].
    cbn [spread_over num_or_undef].
    by destruct (ntruthy n).
  - intros ->. by destruct (fo_temperature options).
Qed.

End MoreEngineFacts.

Lemma createFixConfig_file_config_wins_witness :
  env_getConfig E_configured (tick w_bad)
    (or_else (fo_configPath eager_options) (lit ".agent-config.json"))
  = Ok file_config
  ∧ ∃ cfg,
      fst (createFixConfig E_configured eager_options w_bad) = Ok cfg
      ∧ fo_testCommand eager_options = Some (lit "npm test")
      ∧ cfg_testCommand cfg = Some (lit "yarn test")
      ∧ fo_maxTokens eager_options = Some 4000%Z
      ∧ cfg_maxTokens cfg = Some 500%Z
      ∧ cfg_model cfg = Some (lit "gpt-4o")
      ∧ cfg_maxRetries cfg = Some 5%Z.
Proof.
  assert (env_getConfig E_configured (tick w_bad)
            (or_else (fo_configPath eager_options) (lit ".agent-config.json"))
          = Ok file_config) as Hcfg by reflexivity.
  split; [exact Hcfg|].
  destruct (createFixConfig_file_config_wins E_configured eager_options w_bad
              file_config Hcfg)
    as (cfg & Hrun & _ & Htokens & _ & _ & Hcmd & Hmodel & _ & _ & Hretries & _).
  exists cfg. split; [by rewrite Hrun|].
  split; [reflexivity|].
  split; [by rewrite Hcmd by (by eexists)|].
  split; [reflexivity|].
  split; [by rewrite Htokens by (by eexists)|].
  split; [by rewrite (Hmodel eq_refl)|].
  by rewrite (Hretries eq_refl).
Defined.

(* ====================================================================== *)
(** * Further properties: the CI driver *)
(* ====================================================================== *)

Ltac git_step :=
  cbn [fst snd disk tick trace negb g_success git_ok git_failed];
  match goal with
  | |- context [match ?x with _ => _ end] =>
      lazymatch x with
      | env_execSync _ _ _ _ => destruct x eqn:?
      end
  end.

Section MoreDriverFacts.
Context {num : Type} `{JSNumber num} (E : Env num).

(** X17. [commitFixes] never throws, runs git commands only and leaves
    the working tree alone. It reports success exactly when staging and
    committing went through, and pushing too when a push was asked for.
    It never pushes when no push was asked for, never commits after a
    failed staging, never pushes after a failed commit; a success says
    what was committed and pushed, a failure carries an error text. *)
Theorem commitFixes_steps msg push w :
  ∃ g w' new,
    commitFixes E msg push w = (Ok g, w')
    ∧ trace w' = new ++ trace w
    ∧ disk w' = disk w
    ∧ Forall (λ ev, ∃ cmd res, ev = EvExec cmd res) new
    ∧ (g_success g = true ↔
       (∃ out, In (EvExec git_add (Ok out)) new)
       ∧ (∃ out, In (EvExec (git_commit msg) (Ok out)) new)
       ∧ (push = true → ∃ out, In (EvExec git_push (Ok out)) new))
    ∧ (push = false → ∀ res, ¬ In (EvExec git_push res) new)
    ∧ ((∃ e, In (EvExec git_add (Throw e)) new) →
       ∀ res, ¬ In (EvExec (git_commit msg) res) new)
    ∧ ((∃ e, In (EvExec (git_commit msg) (Throw e)) new) →
       ∀ res, ¬ In (EvExec git_push res) new)
    ∧ (g_success g = true → g_committed g = Some true ∧ g_pushed g = Some push)
    ∧ (g_success g = false → is_Some (g_error g)).
Proof.
  unfold commitFixes, configureGit, stageChanges, commitChanges, pushChanges,
    execSync, try_catch, bind, ret, emit, git_add, git_commit, git_push, quoted.
  vm_compute (lit _). cbn [app].
  destruct push.
  all: repeat git_step.
  all: eexists _, _, _; (split; [reflexivity|]); (split; [trace_eq|]).
  all: cbn [g_success g_committed g_pushed g_error git_failed git_ok disk].
  all: split; [done|]; split; [repeat constructor; eauto|].
  all: transcript_facts.
Qed.

Lemma fixEach_returns config out files acc :
  returns (λ rs, filename <$> rs = (filename <$> acc) ++ files)
          (fixEach E config out files acc).
Proof.
  revert acc. induction files as [|f files IH]; intros acc; cbn [fixEach].
  - apply returns_ret. by rewrite app_nil_r.
  - intros w rs. unfold bind.
    pose proof (fixBug_returns E f (po_error (parseTestOutput out))
                  {| fo_configPath := None;
                     fo_model := Some (ci_model config);
                     fo_maxTokens := None;
                     fo_temperature := None;
                     fo_maxRetries := None;
                     fo_testCommand := Some (ci_testCommand config);
                     fo_configType := Some (configType config) |} w) as Hf.
    destruct (fixBug _ _ _ _ w) as [[r|e] w1]; [|done].
    destruct (Hf r eq_refl) as [Hname _].
    intros Hrs. apply IH in Hrs.
    by rewrite Hrs, fmap_app, <- app_assoc, <- Hname.
Qed.





(** X20. When the test command passes at the start of a round, the round
    ends there: nothing happens but that test run and a look at the
    clock, the working tree is untouched, and the result lists no
    attempt, says the tests passed initially and carries no commit
    status. *)
Theorem runCIFix_nothing_to_fix options w out :
  let cmd := Some (ci_testCommand (createCIConfig options)) in
  env_execSync E (tick w) (disk w) cmd = Ok out →
  ∃ r w',
    runCIFix E options w = (Ok r, w')
    ∧ trace w' = EvClock :: EvExec cmd (Ok out) :: trace w
    ∧ disk w' = disk w
    ∧ fixes r = []
    ∧ totalAttempted r = 0 ∧ successful r = 0 ∧ failed r = 0
    ∧ testsPassedInitially r = Some true
    ∧ ci_message r = Some (lit "No fixes needed")
    ∧ committed r = None.
Proof.
  cbv zeta. intros Hexec. unfold runCIFix. unfold bind at 1.
  rewrite runTests_run, Hexec. cbn [test_result_of tr_success].
  eexists _, _. split; [reflexivity|]. by cbn.
Qed.

(** X21. The CI command always ends with exit code 0 or 1, after one,
    two or three rounds: 0 when the re-run of the tests after the last
    round passed, 1 when it failed and that round was the third; after
    every earlier round the re-run failed. *)
Theorem ci_main_exit_code w :
  ∃ code w' n,
    CIBugFixer.main E w = (Ok code, w')
    ∧ 1 ≤ n ≤ 3
    ∧ w' = after_rounds E main_options n w
    ∧ rounds_started (trace w') = n + rounds_started (trace w)
    ∧ (∀ k, 1 ≤ k < n → retest_passed E main_options k w = false)
    ∧ (code = 0%Z ∧ retest_passed E main_options n w = true
       ∨ code = 1%Z ∧ n = 3 ∧ retest_passed E main_options n w = false).
Proof.
  unfold CIBugFixer.main, runCIFixWithRetries, try_catch, bind,
    after_rounds, retest_passed.
  destruct (retryLoop_spec E main_options 3 0 None w)
    as (r & w' & n & Hloop & Hw' & Hn & Hearlier & Hfinal).
  change (Z.to_nat (ci_maxRetries (createCIConfig main_options))) with 3.
  change (Z.of_nat 1) with 1%Z in Hloop. rewrite Hloop.
  destruct (finalTestsPassed r).
  - destruct Hfinal as (Hn1 & Hpass & _).
    exists 0%Z, w', n. split; [done|]. split; [lia|]. split; [done|].
    split; [by rewrite Hw', rounds_from_started|]. split; [done|]. by left.
  - destruct Hfinal as (-> & Hfail & _).
    exists 1%Z, w', 3. split; [done|]. split; [lia|]. split; [done|].
    split; [by rewrite Hw', rounds_from_started|]. split; [done|].
    right. split_and!; [done..|]. apply Hfail. lia.
Qed.

End MoreDriverFacts.

Lemma runCIFix_nothing_to_fix_witness :
  env_execSync E_empty (tick w_bad) (disk w_bad)
    (Some (ci_testCommand (createCIConfig ci_defaults))) = Ok (lit "PASS")
  ∧ ∃ r w',
      runCIFix E_empty ci_defaults w_bad = (Ok r, w')
      ∧ disk w' = disk w_bad
      ∧ fixes r = [].
Proof.
  assert (env_execSync E_empty (tick w_bad) (disk w_bad)
            (Some (ci_testCommand (createCIConfig ci_defaults)))
          = Ok (lit "PASS")) as Hexec by reflexivity.
  split; [exact Hexec|].
  destruct (runCIFix_nothing_to_fix E_empty ci_defaults w_bad (lit "PASS") Hexec)
    as (r & w' & Hrun & _ & Hdisk & Hfixes & _).
  exists r, w'. split; [exact Hrun|]. split; [exact Hdisk|exact Hfixes].
Defined.


(* ====================================================================== *)
(** * Further properties: what may change in the working tree *)
(* ====================================================================== *)

Section Changes.
Context (may : jsstring → Prop).

Lemma changes_quiet {A} (m : IO A) :
  (∀ w, disk (snd (m w)) = disk w) → changes_only may m.
Proof. intros Hm w g. rewrite Hm. by split. Qed.

Lemma changes_ret {A} (a : A) : changes_only may (ret a).
Proof. by apply changes_quiet. Qed.

Lemma changes_throw {A} (e : Error) : changes_only may (@throw A e).
Proof. by apply changes_quiet. Qed.

Lemma changes_then (d0 d1 d2 : gmap jsstring jsstring) (g : jsstring) :
  (is_Some (d1 !! g) ↔ is_Some (d0 !! g)) ∧ (d1 !! g ≠ d0 !! g → may g) →
  (is_Some (d2 !! g) ↔ is_Some (d1 !! g)) ∧ (d2 !! g ≠ d1 !! g → may g) →
  (is_Some (d2 !! g) ↔ is_Some (d0 !! g)) ∧ (d2 !! g ≠ d0 !! g → may g).
Proof.
  intros [Hs1 Hc1] [Hs2 Hc2]. split; [by rewrite Hs2|].
  intros Hne. destruct (decide (d1 !! g = d0 !! g)) as [Heq|]; [|auto].
  apply Hc2. by rewrite Heq.
Qed.

Lemma changes_bind {A B : Type} (m : IO A) (f : A → IO B) :
  changes_only may m → (∀ a, changes_only may (f a)) → changes_only may (bind m f).
Proof.
  intros Hm Hf w g. unfold bind. specialize (Hm w g).
  destruct (m w) as [[a|e] w1]; cbn [snd] in *; [|done].
  eapply changes_then; [done|apply Hf].
Qed.

Lemma changes_try_catch {A} (m : IO A) (h : Error → IO A) :
  changes_only may m → (∀ e, changes_only may (h e)) →
  changes_only may (try_catch m h).
Proof.
  intros Hm Hh w g. unfold try_catch. specialize (Hm w g).
  destruct (m w) as [[a|e] w1]; cbn [snd] in *; [done|].
  eapply changes_then; [done|apply Hh].
Qed.

(** After a look at the working tree, the continuation only has to
    behave on what can be seen there. *)
Lemma changes_with_disk {A B : Type} (Q : A → Prop)
    (f : gmap jsstring jsstring → A) (k : A → IO B) :
  (∀ d, Q (f d)) → (∀ a, Q a → changes_only may (k a)) →
  changes_only may (bind (with_disk f) k).
Proof. intros HQ Hk w g. unfold bind, with_disk. by apply Hk. Qed.

End Changes.

Lemma changes_mono (may may' : jsstring → Prop) {A} (m : IO A) :
  (∀ g, may g → may' g) → changes_only may m → changes_only may' m.
Proof. intros HST Hm w g. destruct (Hm w g). split; auto. Qed.

Ltac changes :=
  repeat first
    [ apply changes_ret | apply changes_throw
    | by apply changes_quiet
    | apply changes_bind; [|intros ?]
    | apply changes_try_catch; [|intros ?]
    | match goal with
      | |- changes_only _ (if ?b then _ else _) => destruct b
      end ].

Section ChangeFacts.
Context {num : Type} `{JSNumber num} (E : Env num).

Lemma fixBug_changes_aux f em opts :
  changes_only (λ g, g = f) (fixBug E f em opts).
Proof.
  intros w g.
  destruct (fixBug_paths E f em opts w) as (r & w' & new & Hrun & _ & Hpath).
  rewrite Hrun. cbn [snd].
  destruct Hpath;
    match goal with Hd : disk _ = _ |- _ => rewrite Hd end; try done.
  all: match goal with
       | Ho : disk _ !! ?f' = Some _ |- context [_ → ?g' = ?f'] =>
           destruct (decide (g' = f')) as [->|Hne];
             [rewrite lookup_insert_eq, Ho
             |by rewrite ?lookup_insert_ne by done]
       end.
  all: split; [|done]; split; intros _; by eexists.
Qed.

Lemma fixEach_changes (may : jsstring → Prop) config out files acc :
  Forall may files → changes_only may (fixEach E config out files acc).
Proof.
  intros HS. revert acc.
  induction HS as [|f files Hf _ IH]; intros acc; cbn [fixEach].
  - apply changes_ret.
  - apply changes_bind; [|intros r; apply IH].
    eapply changes_mono; [|apply fixBug_changes_aux]. by intros g ->.
Qed.

Lemma runTests_changes may cmd : changes_only may (runTests E cmd).
Proof. apply changes_quiet. intros w. by rewrite runTests_run. Qed.

Lemma commitFixes_changes may msg push : changes_only may (commitFixes E msg push).
Proof.
  unfold commitFixes, configureGit, stageChanges, commitChanges, pushChanges,
    execSync.
  changes.
Qed.

Lemma runCIFix_changes options : changes_only fixable (runCIFix E options).
Proof.
  unfold runCIFix.
  apply changes_bind; [apply runTests_changes|]. intros t.
  destruct (tr_success t); [unfold now; changes|].
  apply (changes_with_disk _ (Forall fixable)).
  { intros d. eapply Forall_impl; [apply identifyFilesToFix_fixable_aux|].
    by intros g [_ Hg]. }
  intros files Hfiles.
  destruct (length files =? 0); [unfold now; changes|].
  apply changes_bind; [by apply fixEach_changes|]. intros fx.
  apply changes_bind; [by apply changes_quiet|]. intros now.
  destruct (_ && _); [|apply changes_ret].
  apply changes_bind; [apply commitFixes_changes|]. intros g. apply changes_ret.
Qed.

Lemma retryLoop_changes options config remaining attempt last :
  changes_only fixable (retryLoop E options config remaining attempt last).
Proof.
  revert attempt last.
  induction remaining as [|remaining IH]; intros attempt last; cbn [retryLoop].
  - apply changes_ret.
  - apply changes_bind; [by apply changes_quiet|]. intros _.
    apply changes_bind; [apply runCIFix_changes|]. intros result.
    apply changes_bind; [apply runTests_changes|]. intros t.
    destruct (tr_success t); [apply changes_ret|apply IH].
Qed.

(** X22. [fixBug] creates no file and deletes none, whatever happens,
    and the only file whose content it can change is the one it was
    called on. *)
Theorem fixBug_changes_only_its_file f em opts w g :
  let w' := snd (fixBug E f em opts w) in
  (is_Some (disk w' !! g) ↔ is_Some (disk w !! g))
  ∧ (disk w' !! g ≠ disk w !! g → g = f).
Proof. apply fixBug_changes_aux. Qed.

(** X23. The whole retry loop of the CI driver, however many rounds it
    runs, creates no file and deletes none, and every file whose content
    it changes has a path that starts with [./] and is neither a test
    file nor under [node_modules]. *)
Theorem runCIFixWithRetries_spares_the_tests options w g :
  let w' := snd (runCIFixWithRetries E options w) in
  (is_Some (disk w' !! g) ↔ is_Some (disk w !! g))
  ∧ (disk w' !! g ≠ disk w !! g →
     startsWith g (lit "./") = true
     ∧ includes g (lit ".test.") = false
     ∧ includes g (lit "node_modules") = false).
Proof. apply retryLoop_changes. Qed.

End ChangeFacts.

(** X24. No field of the CI configuration is ever empty or zero: an
    empty or zero option falls back to the default. *)
Theorem createCIConfig_never_empty (options : CIOptions) :
  let config := createCIConfig options in
  ci_maxRetries config ≠ 0%Z
  ∧ ci_testCommand config ≠ []
  ∧ commitMessage config ≠ []
  ∧ ci_model config ≠ []
  ∧ configType config ≠ [].
Proof.
  cbv zeta. unfold createCIConfig. cbn. split_and!.
  - destruct (co_maxRetries options) as [n|]; [|done].
    destruct (n =? 0)%Z eqn:Hn; [done|]. by apply Z.eqb_neq.
  - by destruct (co_testCommand options) as [[|]|].
  - by destruct (co_commitMessage options) as [[|]|].
  - by destruct (co_model options) as [[|]|].
  - by destruct (co_configType options) as [[|]|].
Qed.

(* ====================================================================== *)
(** * Further properties: the attempts of a round *)
(* ====================================================================== *)

Section AttemptFacts.
Context {num : Type} `{JSNumber num} (E : Env num).

Lemma fixEach_attempts config out files acc w :
  let run := attempt_each E (po_error (parseTestOutput out)) (round_options config)
               files w in
  fixEach E config out files acc w = (Ok (acc ++ fst run), snd run).
Proof.
  cbv zeta. revert acc w.
  induction files as [|f files IH]; intros acc w; cbn [fixEach attempt_each].
  - by rewrite app_nil_r.
  - unfold bind. fold (@round_options num config).
    destruct (no_throw_fixBug E f (po_error (parseTestOutput out))
                (round_options config) w) as [r Hr].
    destruct (fixBug E f _ _ w) as [[r'|e] w1]; cbn [fst] in Hr; [|done].
    injection Hr as ->. rewrite IH.
    destruct (attempt_each E _ _ files w1) as [rs w2]. cbn [fst snd].
    by rewrite <- app_assoc.
Qed.

Lemma quiet_disk {A} (m : IO A) w :
  changes_only (λ _, False) m → disk (snd (m w)) = disk w.
Proof.
  intros Hm. apply map_eq. intros g.
  destruct (Hm w g) as [_ Hsame].
  destruct (decide (disk (snd (m w)) !! g = disk w !! g)); [done|].
  by destruct Hsame.
Qed.

(** X18. One round attempts exactly the files identified from the output
    of the failing test run, each once and in the order of discovery:
    the results it lists are those of calling [fixBug] on these files
    one after the other, each call starting in the world the previous
    one left, with the parsed error text and the round's model, test
    command and configuration type; the working tree the round leaves is
    the one left by the last call, and nothing happens afterwards but a
    look at the clock and, when a commit is made, git commands. No file
    is attempted when the test command passes. The counts of the result
    are those of the attempts made. *)
Theorem runCIFix_attempts_the_identified_files options w :
  let config := createCIConfig options in
  let cmd := Some (ci_testCommand config) in
  ∃ r w',
    runCIFix E options w = (Ok r, w')
    ∧ match env_execSync E (tick w) (disk w) cmd with
      | Ok _ => fixes r = []
      | Throw e =>
          let out := failing_output e in
          let files := identifyFilesToFix (disk w) out in
          let run :=
            attempt_each E (po_error (parseTestOutput out)) (round_options config)
              files (emit (EvExec cmd (Throw e)) w) in
          fixes r = fst run
          ∧ filename <$> fixes r = files
          ∧ disk w' = disk (snd run)
          ∧ ∃ git, trace w' = git ++ EvClock :: trace (snd run)
                   ∧ (committed r = None → git = [])
      end
    ∧ totalAttempted r = length (fixes r)
    ∧ successful r + failed r = totalAttempted r.
Proof.
  cbv zeta. unfold runCIFix. unfold bind at 1. rewrite runTests_run.
  destruct (env_execSync E (tick w) (disk w) _) as [out|e] eqn:Hexec;
    cbn [test_result_of tr_success].
  { unfold bind, now, ret. eexists _, _. split; [reflexivity|]. by cbn. }
  change (tr_output _ ++ or_else (tr_error _) []) with (failing_output e).
  set (out := failing_output e).
  unfold bind at 1, with_disk at 1. set (w1 := emit _ w).
  change (disk w1) with (disk w).
  pose proof (fixEach_returns E (createCIConfig options) out
                (identifyFilesToFix (disk w) out) [] w1) as Hnames.
  rewrite fixEach_attempts in Hnames. cbn [fst app] in Hnames.
  specialize (Hnames _ eq_refl). cbn [fmap list_fmap app] in Hnames.
  destruct (identifyFilesToFix (disk w) out) as [|f files] eqn:Hfiles.
  { cbn [length Nat.eqb attempt_each fst snd]. unfold bind, now, ret.
    eexists _, _. split; [reflexivity|]. cbn.
    split_and!; try done. by exists []. }
  cbn [length Nat.eqb]. unfold bind at 1. rewrite fixEach_attempts.
  cbn [app].
  destruct (attempt_each E _ _ (f :: files) w1) as [rs w2]. cbn [fst snd] in *.
  unfold bind at 1, now at 1.
  assert (length (filter (λ x, success x = true) rs)
          + length (filter (λ x, negb (success x) = true) rs) = length rs)
    as Hsum.
  { apply filter_partition_length.
    intros x; destruct (success x); cbn; split; congruence. }
  destruct (autoCommit (createCIConfig options) && _) eqn:Hcommit.
  2:{ unfold ret. eexists _, _. split; [reflexivity|]. cbn.
      split_and!; try done. by exists []. }
  unfold bind.
  set (w3 := emit EvClock w2).
  destruct (no_throw_commitFixes E (commitMessage (createCIConfig options))
              (autoPush (createCIConfig options)) w3) as [g Hg].
  destruct (emits_commitFixes E (commitMessage (createCIConfig options))
              (autoPush (createCIConfig options)) w3) as (git & Hgit & _).
  pose proof (quiet_disk _ w3
                (commitFixes_changes E _ (commitMessage (createCIConfig options))
                   (autoPush (createCIConfig options)))) as Hquiet.
  destruct (commitFixes E _ _ w3) as [[g'|e'] w4]; cbn [fst snd] in *; [|done].
  injection Hg as ->.
  unfold ret. eexists _, _. split; [reflexivity|].
  cbn [fixes createCIResult totalAttempted successful failed committed].
  split_and!; try done.
  exists git. split; [done|]. done.
Qed.
End AttemptFacts.
